(** * coding-utilities: string-encoding helpers and the UTF-8 argument decoder

    A shallow embedding of [src/cpp/strcvt.h] and [src/cpp/utf8_args.h].

    - narrow characters ([char]) are [Byte.byte]; [static_cast<unsigned char>]
      is [Cxx.uchar];
    - wide characters ([wchar_t], 16 bits on the target) are [Z];
    - [int] and [size_t] values are [Z], with the wrap-around of the
      conversions the source performs written out;
    - a [const char*] is [option (list byte)]: [None] is the null pointer,
      [Some mem] the bytes of the array it points into, terminator included;
    - a [std::string] / [std::wstring] is the list of its characters
      (terminator excluded, embedded NULs allowed).

    The two conversion primitives of the host ([MultiByteToWideChar],
    [WideCharToMultiByte]) are not part of the repository.  Their character
    tables are a parameter (class [Host]); their calling convention
    (length sentinel, measuring call, filling call) is modelled in [Win32]. *)

From Stdlib Require Import ZArith List Lia Bool String Ascii.
From Stdlib Require Import Strings.Byte.
From Equations Require Import Equations.
Import ListNotations.
Local Open Scope Z_scope.

(* ================================================================== *)
(** ** C++ scalar types and string objects *)

Module Cxx.

Definition wchar_t : Type := Z.

(** [static_cast<unsigned char>(c)] *)
Definition uchar (c : byte) : Z := Z.of_N (Byte.to_N c).

(** The [char] holding the low eight bits of [z]. *)
Definition to_char (z : Z) : byte :=
  match Byte.of_N (Z.to_N (z mod 256)) with
  | Some b => b
  | None => x00
  end.

Definition INT_MAX : Z := 2 ^ 31 - 1.

(** [static_cast<int>(z)] for an unsigned [z]: reduction modulo [2^32]
    into the signed range. *)
Definition static_cast_int (z : Z) : Z := (z + 2 ^ 31) mod 2 ^ 32 - 2 ^ 31.

Definition SIZE_MAX : Z := 2 ^ 64 - 1.

(** Arithmetic on [size_t] is modulo [2^64]. *)
Definition size_t (z : Z) : Z := z mod 2 ^ 64.

(** [str.size()] *)
Definition size {A : Type} (str : list A) : Z := Z.of_nat (List.length str).

(** [str.empty()] *)
Definition empty {A : Type} (str : list A) : bool :=
  match str with
  | [] => true
  | _ :: _ => false
  end.

(** [str.c_str()]: the characters followed by the terminator. *)
Definition c_str (str : list byte) : list byte := str ++ [x00].
Definition wc_str (wstr : list wchar_t) : list wchar_t := wstr ++ [0].

(** The characters of an array up to and including the first one that
    satisfies [nul] (the whole array when there is none). *)
Fixpoint through_nul {A : Type} (nul : A -> bool) (mem : list A) : list A :=
  match mem with
  | [] => []
  | c :: rest => if nul c then [c] else c :: through_nul nul rest
  end.

(** The characters of an array before the first one that satisfies [nul]:
    what constructing a [std::string] from a C string copies. *)
Fixpoint before_nul {A : Type} (nul : A -> bool) (mem : list A) : list A :=
  match mem with
  | [] => []
  | c :: rest => if nul c then [] else c :: before_nul nul rest
  end.

Definition is_nul (c : byte) : bool := Byte.eqb c x00.
Definition is_wnul (c : wchar_t) : bool := c =? 0.

(** [std::vector<T> buffer(n)]: [n] value-initialised elements. *)
Definition vector {A : Type} (zero : A) (n : Z) : list A :=
  repeat zero (Z.to_nat n).

(** Writing [out] at the start of a buffer [buf]. *)
Definition store {A : Type} (out buf : list A) : list A :=
  out ++ skipn (List.length out) buf.

End Cxx.

Import Cxx.

(* ================================================================== *)
(** ** The host's conversion primitives *)

(** The character tables of the host: what a code page makes of a complete
    run of bytes, and of a complete run of UTF-16 code units, under the
    default flags (the only ones the source passes). *)
Class Host : Type := {
  mb_decode : Z -> list byte -> list wchar_t;
  wc_encode : Z -> list wchar_t -> list byte
}.

Module Win32.

Definition CP_ACP : Z := 0.
Definition CP_UTF8 : Z := 65001.

(** The input a primitive consumes: the array through its terminator for
    the [-1] sentinel, the first [n] characters for a positive count [n],
    and none for any other count (the call fails, as the host documents
    for a count of [0]). *)
Definition source {A : Type} (nul : A -> bool) (mem : list A) (n : Z)
  : option (list A) :=
  if n =? 0 then None
  else if n =? -1 then Some (through_nul nul mem)
  else if n <? 0 then None
  else Some (firstn (Z.to_nat n) mem).

(** The result of a call: with a destination size of [0] the required size
    is returned and the destination is left alone; otherwise the output is
    written and its size returned, or [0] when it does not fit.  The host
    returns the size as an [int]: the model says what a call does when the
    size of the output is at most [INT_MAX], and the properties below that
    are about a call keep it there. *)
Definition deliver {A : Type} (out dst : list A) (dstlen : Z) : Z * list A :=
  if dstlen =? 0 then (size out, dst)
  else if size out <=? dstlen then (size out, store out dst)
  else (0, dst).

Section Primitives.
Context {host : Host}.

(** Modelled from the spec: [MultiByteToWideChar], a primitive of the host
    that the repository calls and does not contain.  It "decodes [length]
    bytes (or all bytes up to a terminator if length is unspecified)"
    under a code page into UTF-16, is used in the "two-call
    measure-then-fill pattern", and "reports zero converted units" on
    failure; the "[length = -1]-style sentinel" makes it decode "up to and
    including a terminator".  Returns the reported count and the
    contents of the destination buffer after the call. *)
Definition MultiByteToWideChar (CodePage dwFlags : Z)
    (lpMultiByteStr : list byte) (cbMultiByte : Z)
    (lpWideCharStr : list wchar_t) (cchWideChar : Z) : Z * list wchar_t :=
  match source is_nul lpMultiByteStr cbMultiByte with
  | None => (0, lpWideCharStr)
  | Some src => deliver (mb_decode CodePage src) lpWideCharStr cchWideChar
  end.

(** Modelled from the spec: [WideCharToMultiByte], the inverse primitive
    of the host, likewise called and not contained.  It "encodes UTF-16
    into [code_page] bytes", with the same calling convention.  The source
    always passes null for the default-character arguments, which are
    left out. *)
Definition WideCharToMultiByte (CodePage dwFlags : Z)
    (lpWideCharStr : list wchar_t) (cchWideChar : Z)
    (lpMultiByteStr : list byte) (cbMultiByte : Z) : Z * list byte :=
  match source is_wnul lpWideCharStr cchWideChar with
  | None => (0, lpMultiByteStr)
  | Some src => deliver (wc_encode CodePage src) lpMultiByteStr cbMultiByte
  end.

(** The number of converted units the host reports to the measuring
    call of [CStr2WString], and to that of [WString2String]. *)
Definition reported_wide (cp : Z) (mem : list byte) (length : Z) : Z :=
  fst (MultiByteToWideChar cp 0 mem length [] 0).

Definition reported_narrow (cp : Z) (wstr : list wchar_t) : Z :=
  fst (WideCharToMultiByte cp 0 (wc_str wstr)
         (static_cast_int (size wstr)) [] 0).

End Primitives.

End Win32.

Import Win32.

(* ================================================================== *)
(** ** [strcvt.h] *)

Definition inspect {A : Type} (a : A) : {b : A | a = b} := exist _ a eq_refl.

Module strcvt.

Section Conversions.
Context {host : Host}.

Definition CStr2WString (str : option (list byte)) (length : Z) (cp : Z)
  : list wchar_t :=
  match str with
  | None => []
  | Some mem =>
      let wlen := fst (MultiByteToWideChar cp 0 mem length [] 0) in
      if wlen =? 0 then []
      else
        let buffer := vector 0 wlen in
        let buffer := snd (MultiByteToWideChar cp 0 mem length buffer wlen) in
        buffer
  end.

Definition String2WString (str : list byte) (cp : Z) : list wchar_t :=
  if empty str then []
  else CStr2WString (Some (c_str str)) (static_cast_int (size str)) cp.

Definition WString2String (wstr : list wchar_t) (cp : Z) : list byte :=
  if empty wstr then []
  else
    let len :=
      fst (WideCharToMultiByte cp 0 (wc_str wstr)
             (static_cast_int (size wstr)) [] 0) in
    if len =? 0 then []
    else
      let buffer := vector x00 len in
      let buffer :=
        snd (WideCharToMultiByte cp 0 (wc_str wstr)
               (static_cast_int (size wstr)) buffer len) in
      buffer.

Definition U8CStr2WString (str : option (list byte)) (length : Z)
  : list wchar_t :=
  match str with
  | None => []
  | Some _ =>
      if length =? 0 then []
      else CStr2WString str length CP_UTF8
  end.

Definition U8String2WString (str : list byte) : list wchar_t :=
  if empty str then []
  else String2WString str CP_UTF8.

Definition WString2U8String (wstr : list wchar_t) : list byte :=
  if empty wstr then []
  else WString2String wstr CP_UTF8.

Definition U8CStr2String (utf8_str : option (list byte)) (length : Z)
  : list byte :=
  match utf8_str with
  | None => []
  | Some _ =>
      if length =? 0 then []
      else
        let wide_str := U8CStr2WString utf8_str length in
        WString2String wide_str CP_ACP
  end.

Definition U8String2String (utf8_str : list byte) : list byte :=
  if empty utf8_str then []
  else U8CStr2String (Some (c_str utf8_str)) (static_cast_int (size utf8_str)).

Definition String2U8String (str : list byte) : list byte :=
  if empty str then []
  else
    let wide_str := String2WString str CP_ACP in
    WString2U8String wide_str.

End Conversions.

(** What a scan of the array ends in: a returned count, or a read past the
    end of the array the pointer points into. *)
Inductive scan : Type :=
| Returned (count : Z)
| ReadPastEnd.

(** The [while] loop of [U8StrLength]; [str] is the offset of the pointer
    into [mem]. *)
Equations? U8StrLength_loop (mem : list byte) (str : nat) (count : Z) : scan
  by wf (List.length mem - str)%nat lt :=
U8StrLength_loop mem str count with inspect (nth_error mem str) := {
  | exist _ None _ => ReadPastEnd
  | exist _ (Some ch) _ =>
      if is_nul ch then Returned count
      else
        let c := uchar ch in
        if c <? 0x80 then
          U8StrLength_loop mem (str + 1) (size_t (count + 1))
        else if Z.shiftr c 5 =? 0x6 then
          U8StrLength_loop mem (str + 2) (size_t (count + 1))
        else if Z.shiftr c 4 =? 0xE then
          U8StrLength_loop mem (str + 3) (size_t (count + 1))
        else if Z.shiftr c 3 =? 0x1E then
          U8StrLength_loop mem (str + 4) (size_t (count + 1))
        else Returned count }.
Proof.
  all: assert (str < List.length mem)%nat
    by (apply nth_error_Some; congruence); lia.
Qed.

Definition U8StrLength (str : option (list byte)) : scan :=
  match str with
  | None => Returned 0
  | Some mem => U8StrLength_loop mem 0 0
  end.

(** The [const std::string&] overload. *)
Definition U8StrLength_string (str : list byte) : scan :=
  if empty str then Returned 0
  else U8StrLength (Some (c_str str)).

End strcvt.

(* ================================================================== *)
(** ** [utf8_args.h] *)

(** The process boundary of the argument decoder: the raw command line of
    the process and the host's parser for it, which returns no array on
    failure and otherwise the arguments as wide C strings (their number is
    what the parser stores in [argc]). *)
Class Shell : Type := {
  GetCommandLineW : list wchar_t;
  CommandLineToArgvW : list wchar_t -> option (list (list wchar_t))
}.

(** The number of line ends in what was written to a stream. *)
Fixpoint newlines (text : string) : nat :=
  match text with
  | EmptyString => 0%nat
  | String ch rest =>
      ((if Ascii.eqb ch "010" then 1 else 0) + newlines rest)%nat
  end.

Definition lines_written (chunks : list string) : nat :=
  list_sum (map newlines chunks).

Module utf8_args.

(** The branch compiled when [_WIN32] is defined. *)
Module win32.

Section Decoder.
Context {host : Host} {shell : Shell}.

Definition WideToUTF8 (wstr : option (list wchar_t)) : list byte :=
  match wstr with
  | None => []
  | Some mem =>
      let size := fst (WideCharToMultiByte CP_UTF8 0 mem (-1) [] 0) in
      if size <=? 0 then []
      else
        (* [size - 1] characters, followed by the terminator slot *)
        let utf8 := vector x00 (size - 1) in
        let data :=
          snd (WideCharToMultiByte CP_UTF8 0 mem (-1) (c_str utf8) size) in
        firstn (Z.to_nat (size - 1)) data
  end.

(** The [for] loop: [n] iterations remain, the next index is [i].  The
    loop stays below [argc]; an index outside the array would read as the
    null pointer. *)
Fixpoint emplace_args (argv_w : list (list wchar_t)) (i n : nat)
    (utf8_args : list (list byte)) : list (list byte) :=
  match n with
  | O => utf8_args
  | S n' =>
      emplace_args argv_w (S i) n'
        (utf8_args ++ [WideToUTF8 (nth_error argv_w i)])
  end.

Definition diagnostic : string :=
  "[utf8_args] Failed to parse command line."
    ++ String "010"%char EmptyString.

(** Returns the argument list and what the call wrote to [stderr]. *)
Definition GetUTF8CommandLineArgs : list (list byte) * list string :=
  let argv_w := CommandLineToArgvW GetCommandLineW in
  let utf8_args := [] in
  match argv_w with
  | None => (utf8_args, [diagnostic])
  | Some argv =>
      let argc := size argv in
      (emplace_args argv 0 (Z.to_nat argc) utf8_args, [])
  end.

End Decoder.

End win32.

(** The branch compiled otherwise. *)
Module posix.

(** [std::vector<std::string>(argv, argv + argc)]: one [std::string] per
    pointer in the range, each built from the C string it points to.  The
    range is that of the program's entry point, [argc] entries of [argv];
    for another [argc] the range is not one of the array and the model says
    nothing of the source. *)
Definition GetUTF8CommandLineArgs (argc : Z) (argv : list (list byte))
  : list (list byte) :=
  map (before_nul is_nul) (firstn (Z.to_nat argc) argv).

End posix.

End utf8_args.

(* ================================================================== *)
(** ** UTF-8 and UTF-16 (the Unicode encoding forms), and a reference host *)

Module Unicode.

(** Unicode scalar values: code points outside the surrogate range. *)
Definition is_scalar (c : Z) : bool :=
  ((0 <=? c) && (c <? 0xD800)) || ((0xE000 <=? c) && (c <=? 0x10FFFF)).

(** Scalar values other than U+0000, whose encoding is the terminator. *)
Definition nonzero_scalar (c : Z) : bool := is_scalar c && negb (c =? 0).

Definition utf8_encode1 (c : Z) : list byte :=
  if c <? 0x80 then [to_char c]
  else if c <? 0x800 then
    [to_char (0xC0 + c / 64); to_char (0x80 + c mod 64)]
  else if c <? 0x10000 then
    [to_char (0xE0 + c / 4096); to_char (0x80 + (c / 64) mod 64);
     to_char (0x80 + c mod 64)]
  else
    [to_char (0xF0 + c / 262144); to_char (0x80 + (c / 4096) mod 64);
     to_char (0x80 + (c / 64) mod 64); to_char (0x80 + c mod 64)].

Definition utf8_encode (cps : list Z) : list byte :=
  flat_map utf8_encode1 cps.

Definition utf16_encode1 (c : Z) : list wchar_t :=
  if c <? 0x10000 then [c]
  else [0xD800 + (c - 0x10000) / 1024; 0xDC00 + (c - 0x10000) mod 1024].

Definition utf16_encode (cps : list Z) : list wchar_t :=
  flat_map utf16_encode1 cps.

(** The width a lead byte declares through its high bits:
    [0xxxxxxx] one byte, [110xxxxx] two, [1110xxxx] three, [11110xxx] four;
    any other byte ([10xxxxxx], [11111xxx]) declares none. *)
Definition lead_width (c : Z) : option nat :=
  if negb (Z.testbit c 7) then Some 1%nat
  else if negb (Z.testbit c 6) then None
  else if negb (Z.testbit c 5) then Some 2%nat
  else if negb (Z.testbit c 4) then Some 3%nat
  else if negb (Z.testbit c 3) then Some 4%nat
  else None.

(** A byte sequence as the counter takes one: a lead byte other than the
    terminator, followed by as many bytes, whatever they are, as the width
    it declares asks for. *)
Definition declared_sequence (seq : list byte) : bool :=
  match seq with
  | [] => false
  | lead :: conts =>
      negb (is_nul lead) &&
      match lead_width (uchar lead) with
      | Some w => Nat.eqb w (S (List.length conts))
      | None => false
      end
  end.

Definition REPLACEMENT : Z := 0xFFFD.

(** The payload of a continuation byte [10xxxxxx], if it is one. *)
Definition cont (b : byte) : option Z :=
  let c := uchar b in
  if (0x80 <=? c) && (c <=? 0xBF) then Some (c - 0x80) else None.

(** Decoding, with one replacement character per byte that does not start
    a well-formed sequence.  [utf8_decode_at] decodes at a lead byte [b0]
    followed by [t0]; [rest] decodes what follows the sequence. *)
Definition utf8_decode_at (rest : list byte -> list Z) (b0 : byte)
    (t0 : list byte) : list Z :=
  let c0 := uchar b0 in
  let bad := REPLACEMENT :: rest t0 in
  if c0 <? 0x80 then c0 :: rest t0
  else if c0 <? 0xC0 then bad
  else if c0 <? 0xE0 then
    match t0 with
    | b1 :: t1 =>
        match cont b1 with
        | Some x1 =>
            let c := (c0 - 0xC0) * 64 + x1 in
            if 0x80 <=? c then c :: rest t1 else bad
        | None => bad
        end
    | _ => bad
    end
  else if c0 <? 0xF0 then
    match t0 with
    | b1 :: b2 :: t2 =>
        match cont b1, cont b2 with
        | Some x1, Some x2 =>
            let c := (c0 - 0xE0) * 4096 + x1 * 64 + x2 in
            if (0x800 <=? c) && is_scalar c then c :: rest t2 else bad
        | _, _ => bad
        end
    | _ => bad
    end
  else if c0 <? 0xF8 then
    match t0 with
    | b1 :: b2 :: b3 :: t3 =>
        match cont b1, cont b2, cont b3 with
        | Some x1, Some x2, Some x3 =>
            let c := (c0 - 0xF0) * 262144 + x1 * 4096 + x2 * 64 + x3 in
            if (0x10000 <=? c) && (c <=? 0x10FFFF) then c :: rest t3
            else bad
        | _, _, _ => bad
        end
    | _ => bad
    end
  else bad.

Fixpoint utf8_decode (s : list byte) : list Z :=
  match s with
  | [] => []
  | b0 :: t0 => utf8_decode_at utf8_decode b0 t0
  end.

(** Decoding UTF-16, with a replacement character per unpaired surrogate. *)
Fixpoint utf16_decode (w : list wchar_t) : list Z :=
  match w with
  | [] => []
  | u :: t =>
      if (0xD800 <=? u) && (u <? 0xDC00) then
        match t with
        | l :: t' =>
            if (0xDC00 <=? l) && (l <? 0xE000) then
              (0x10000 + (u - 0xD800) * 1024 + (l - 0xDC00)) :: utf16_decode t'
            else REPLACEMENT :: utf16_decode t
        | [] => [REPLACEMENT]
        end
      else if (0xDC00 <=? u) && (u <? 0xE000) then
        REPLACEMENT :: utf16_decode t
      else u :: utf16_decode t
  end.

(** ISO 8859-1, the code page whose bytes are the first 256 code points;
    anything else is replaced by a question mark. *)
Definition latin1_decode (s : list byte) : list wchar_t := map uchar s.

Definition latin1_encode (w : list wchar_t) : list byte :=
  map (fun u => if (0 <=? u) && (u <? 256) then to_char u else "?"%byte) w.

(** A host whose UTF-8 code page is the transcoder above and whose every
    other code page (the system default included) is ISO 8859-1. *)
Definition reference_host : Host := {|
  mb_decode cp s :=
    if cp =? CP_UTF8 then utf16_encode (utf8_decode s) else latin1_decode s;
  wc_encode cp w :=
    if cp =? CP_UTF8 then utf8_encode (utf16_decode w) else latin1_encode w
|}.

(** A host conforms to the encoding forms when its UTF-8 code page takes
    the UTF-8 encoding of every text (list of scalar values) to its UTF-16
    encoding, and back. *)
Definition utf8_conformant (host : Host) : Prop :=
  forall cps : list Z,
    forallb is_scalar cps = true ->
    mb_decode CP_UTF8 (utf8_encode cps) = utf16_encode cps /\
    wc_encode CP_UTF8 (utf16_encode cps) = utf8_encode cps.

(** A wide string is expressible without loss in the system code page
    when its encoding there decodes back to it (and is not empty unless
    the string is). *)
Definition expressible_in_ACP (host : Host) (w : list wchar_t) : Prop :=
  mb_decode CP_ACP (wc_encode CP_ACP w) = w /\
  (w <> [] -> wc_encode CP_ACP w <> []).




(** The number of letters [a] whose count, as an [int], is zero. *)
Definition four_GiB : nat := Pos.to_nat 4294967296.

(** A shell whose parser splits the command line at spaces (no quoting)
    and fails on an empty command line. *)
Fixpoint split_spaces (cur : list wchar_t) (line : list wchar_t)
  : list (list wchar_t) :=
  match line with
  | [] => [wc_str cur]
  | u :: rest =>
      if u =? 32 then wc_str cur :: split_spaces [] rest
      else split_spaces (cur ++ [u]) rest
  end.

Definition reference_shell (line : list wchar_t) : Shell := {|
  GetCommandLineW := line;
  CommandLineToArgvW l :=
    match l with
    | [] => None
    | _ => Some (split_spaces [] l)
    end
|}.

End Unicode.

Import Unicode.
Import strcvt.

(* ================================================================== *)
(** * Properties *)

(** ** Characters *)

Lemma uchar_range (b : byte) : 0 <= uchar b < 256.
Proof.
  unfold uchar. pose proof (Byte.to_N_bounded b) as Hb. lia.
Qed.

Lemma to_char_uchar (b : byte) : to_char (uchar b) = b.
Proof.
  unfold to_char. pose proof (uchar_range b) as Hr.
  rewrite Z.mod_small by lia. unfold uchar.
  rewrite N2Z.id, Byte.of_to_N. reflexivity.
Qed.

Lemma uchar_to_char (z : Z) : 0 <= z < 256 -> uchar (to_char z) = z.
Proof.
  intros Hz. unfold to_char, uchar. rewrite Z.mod_small by lia.
  destruct (Byte.of_N (Z.to_N z)) as [b|] eqn:E.
  - apply Byte.to_of_N in E. rewrite E. lia.
  - apply Byte.of_N_None_iff in E. lia.
Qed.

Lemma uchar_inj (a b : byte) : uchar a = uchar b -> a = b.
Proof.
  intros H. rewrite <- (to_char_uchar a), <- (to_char_uchar b), H. reflexivity.
Qed.

Lemma is_nul_uchar (b : byte) : is_nul b = (uchar b =? 0).
Proof.
  unfold is_nul. destruct (Byte.eqb b x00) eqn:E.
  - apply Byte.byte_dec_bl in E. subst b. reflexivity.
  - symmetry. apply Z.eqb_neq. intros H.
    assert (b = x00) by (apply uchar_inj; exact H). subst b. discriminate.
Qed.

(** ** The scanning loop *)

(** One iteration of the loop, as the source writes it. *)
Lemma U8StrLength_loop_eq (mem : list byte) (str : nat) (count : Z) :
  U8StrLength_loop mem str count =
  match nth_error mem str with
  | None => ReadPastEnd
  | Some ch =>
      if is_nul ch then Returned count
      else
        let c := uchar ch in
        if c <? 0x80 then U8StrLength_loop mem (str + 1) (size_t (count + 1))
        else if Z.shiftr c 5 =? 0x6 then
          U8StrLength_loop mem (str + 2) (size_t (count + 1))
        else if Z.shiftr c 4 =? 0xE then
          U8StrLength_loop mem (str + 3) (size_t (count + 1))
        else if Z.shiftr c 3 =? 0x1E then
          U8StrLength_loop mem (str + 4) (size_t (count + 1))
        else Returned count
  end.
Proof.
  rewrite U8StrLength_loop_equation_1. unfold inspect.
  generalize (@eq_refl _ (nth_error mem str)).
  generalize (nth_error mem str) at 2 4 5.
  intros [ch|] e; reflexivity.
Qed.

(** The comparisons of the source are the high-bit patterns. *)
Lemma lead_width_compare (ch : byte) :
  lead_width (uchar ch) =
  let c := uchar ch in
  if c <? 0x80 then Some 1%nat
  else if Z.shiftr c 5 =? 0x6 then Some 2%nat
  else if Z.shiftr c 4 =? 0xE then Some 3%nat
  else if Z.shiftr c 3 =? 0x1E then Some 4%nat
  else None.
Proof. destruct ch; reflexivity. Qed.

Lemma U8StrLength_loop_step (mem : list byte) (str : nat) (count : Z)
    (ch : byte) :
  nth_error mem str = Some ch ->
  U8StrLength_loop mem str count =
  if is_nul ch then Returned count
  else
    match lead_width (uchar ch) with
    | Some w => U8StrLength_loop mem (str + w) (size_t (count + 1))
    | None => Returned count
    end.
Proof.
  intros Hch. rewrite U8StrLength_loop_eq, Hch, lead_width_compare. cbv zeta.
  destruct (is_nul ch); [reflexivity|].
  destruct (uchar ch <? 128); [reflexivity|].
  destruct (Z.shiftr (uchar ch) 5 =? 6); [reflexivity|].
  destruct (Z.shiftr (uchar ch) 4 =? 14); [reflexivity|].
  destruct (Z.shiftr (uchar ch) 3 =? 30); reflexivity.
Qed.

Lemma lead_width_range (c : Z) :
  0 <= c < 256 ->
  lead_width c =
  if c <? 0x80 then Some 1%nat
  else if c <? 0xC0 then None
  else if c <? 0xE0 then Some 2%nat
  else if c <? 0xF0 then Some 3%nat
  else if c <? 0xF8 then Some 4%nat
  else None.
Proof.
  intros Hc. rewrite <- (uchar_to_char c Hc).
  destruct (to_char c); reflexivity.
Qed.

(** ** Well-formed sequences under the scan *)

Ltac zdiv := Z.div_mod_to_equations; lia.

Lemma is_scalar_range (c : Z) :
  is_scalar c = true <-> (0 <= c < 0xD800 \/ 0xE000 <= c <= 0x10FFFF).
Proof. unfold is_scalar. lia. Qed.

(** The first byte of an encoded scalar value declares the length of its
    encoding, and is the terminator only for U+0000. *)
Lemma utf8_encode1_lead (c : Z) :
  is_scalar c = true ->
  exists lead conts,
    utf8_encode1 c = lead :: conts /\
    is_nul lead = (c =? 0) /\
    lead_width (uchar lead) = Some (S (List.length conts)).
Proof.
  intros Hc. apply is_scalar_range in Hc. unfold utf8_encode1.
  destruct (c <? 128) eqn:E1; [|destruct (c <? 2048) eqn:E2;
    [|destruct (c <? 65536) eqn:E3]];
    eexists; eexists; (split; [reflexivity|]);
    rewrite is_nul_uchar, uchar_to_char by zdiv;
    rewrite lead_width_range by zdiv; split.
  - reflexivity.
  - replace (c <? 128) with true by lia. reflexivity.
  - zdiv.
  - replace (192 + c / 64 <? 128) with false by zdiv.
    replace (192 + c / 64 <? 192) with false by zdiv.
    replace (192 + c / 64 <? 224) with true by zdiv. reflexivity.
  - zdiv.
  - replace (224 + c / 4096 <? 128) with false by zdiv.
    replace (224 + c / 4096 <? 192) with false by zdiv.
    replace (224 + c / 4096 <? 224) with false by zdiv.
    replace (224 + c / 4096 <? 240) with true by zdiv. reflexivity.
  - zdiv.
  - replace (240 + c / 262144 <? 128) with false by zdiv.
    replace (240 + c / 262144 <? 192) with false by zdiv.
    replace (240 + c / 262144 <? 224) with false by zdiv.
    replace (240 + c / 262144 <? 240) with false by zdiv.
    replace (240 + c / 262144 <? 248) with true by zdiv. reflexivity.
Qed.

Lemma nth_error_middle {A : Type} (pre : list A) (x : A) (post : list A) :
  nth_error (pre ++ x :: post) (List.length pre) = Some x.
Proof.
  rewrite nth_error_app2 by lia. rewrite Nat.sub_diag. reflexivity.
Qed.

(** Scanning over the encoding of non-zero scalar values moves the pointer
    to its end and counts once per value. *)
Lemma U8StrLength_loop_encoded (cps : list Z) :
  forall (pre rest : list byte) (count : Z),
  forallb nonzero_scalar cps = true ->
  U8StrLength_loop (pre ++ utf8_encode cps ++ rest) (List.length pre) count =
  U8StrLength_loop (pre ++ utf8_encode cps ++ rest)
    (List.length pre + List.length (utf8_encode cps))
    (Nat.iter (List.length cps) (fun k => size_t (k + 1)) count).
Proof.
  induction cps as [|c cps IH]; intros pre rest count Hall.
  - simpl. rewrite Nat.add_0_r. reflexivity.
  - simpl in Hall. apply andb_prop in Hall. destruct Hall as [Hc Hall'].
    unfold nonzero_scalar in Hc. apply andb_prop in Hc.
    destruct Hc as [Hc Hnz].
    destruct (utf8_encode1_lead c Hc) as (lead & conts & Henc & Hnul & Hw).
    change (utf8_encode (c :: cps)) with (utf8_encode1 c ++ utf8_encode cps).
    rewrite (U8StrLength_loop_step _ _ _ lead).
    2:{ rewrite Henc. simpl. apply nth_error_middle. }
    rewrite Hnul. destruct (c =? 0); [discriminate|]. rewrite Hw.
    specialize (IH (pre ++ utf8_encode1 c) rest (size_t (count + 1)) Hall').
    rewrite <- !app_assoc in IH. rewrite <- !app_assoc.
    rewrite length_app in IH. rewrite length_app.
    change (List.length (c :: cps)) with (S (List.length cps)).
    rewrite Nat.iter_succ_r.
    replace (List.length pre + S (List.length conts))%nat
      with (List.length pre + List.length (utf8_encode1 c))%nat
      by (rewrite Henc; reflexivity).
    rewrite IH. f_equal. lia.
Qed.

Lemma size_t_iter (n : nat) (count : Z) :
  0 <= count -> count + Z.of_nat n <= SIZE_MAX ->
  Nat.iter n (fun k => size_t (k + 1)) count = count + Z.of_nat n.
Proof.
  unfold SIZE_MAX. revert count.
  induction n as [|n IH]; intros count H0 Hmax.
  - simpl. lia.
  - rewrite Nat.iter_succ_r. rewrite IH.
    + unfold size_t. rewrite Z.mod_small; lia.
    + unfold size_t. apply Z.mod_pos_bound. lia.
    + unfold size_t. rewrite Z.mod_small; lia.
Qed.

(** ** Measuring and filling *)

Lemma empty_nil {A : Type} (l : list A) : empty l = true <-> l = [].
Proof. destruct l; simpl; split; congruence. Qed.

Lemma size_nonneg {A : Type} (l : list A) : 0 <= size l.
Proof. unfold size. lia. Qed.

Lemma size_zero {A : Type} (l : list A) : size l = 0 <-> l = [].
Proof.
  unfold size. destruct l; simpl; split; intros H; try reflexivity;
    try discriminate; lia.
Qed.

Lemma store_vector {A : Type} (zero : A) (out : list A) :
  store out (vector zero (size out)) = out.
Proof.
  unfold store, vector, size. rewrite Nat2Z.id.
  rewrite skipn_all2 by (rewrite repeat_length; lia).
  apply app_nil_r.
Qed.

(** A measuring call followed by a filling call into a buffer of the
    measured size leaves exactly the output in the buffer. *)
Lemma deliver_measure {A : Type} (out dst : list A) :
  fst (deliver out dst 0) = size out.
Proof. reflexivity. Qed.

Lemma deliver_fill {A : Type} (zero : A) (out : list A) :
  snd (deliver out (vector zero (size out)) (size out)) = out.
Proof.
  unfold deliver. destruct (size out =? 0) eqn:E.
  - apply Z.eqb_eq in E. apply size_zero in E. subst out. reflexivity.
  - rewrite Z.leb_refl. simpl. apply store_vector.
Qed.

Lemma source_zero {A : Type} (nul : A -> bool) (mem : list A) :
  source nul mem 0 = None.
Proof. reflexivity. Qed.

Lemma source_sentinel {A : Type} (nul : A -> bool) (mem : list A) :
  source nul mem (-1) = Some (through_nul nul mem).
Proof. reflexivity. Qed.

Lemma source_counted {A : Type} (nul : A -> bool) (mem : list A) (n : Z) :
  0 < n -> source nul mem n = Some (firstn (Z.to_nat n) mem).
Proof.
  intros Hn. unfold source.
  replace (n =? 0) with false by lia.
  replace (n =? -1) with false by lia.
  replace (n <? 0) with false by lia. reflexivity.
Qed.

Lemma static_cast_int_small (z : Z) :
  0 <= z <= INT_MAX -> static_cast_int z = z.
Proof.
  unfold INT_MAX, static_cast_int. intros Hz.
  rewrite Z.mod_small; lia.
Qed.

Lemma through_nul_terminated {A : Type} (nul : A -> bool) (s : list A)
    (z : A) (tail : list A) :
  forallb (fun c => negb (nul c)) s = true -> nul z = true ->
  through_nul nul (s ++ z :: tail) = s ++ [z].
Proof.
  intros Hs Hz. induction s as [|c s IH]; simpl in *.
  - rewrite Hz. reflexivity.
  - apply andb_prop in Hs. destruct Hs as [Hc Hs].
    destruct (nul c); [discriminate|]. rewrite IH by exact Hs. reflexivity.
Qed.

Lemma before_nul_terminated {A : Type} (nul : A -> bool) (s : list A)
    (z : A) (tail : list A) :
  forallb (fun c => negb (nul c)) s = true -> nul z = true ->
  before_nul nul (s ++ z :: tail) = s.
Proof.
  intros Hs Hz. induction s as [|c s IH]; simpl in *.
  - rewrite Hz. reflexivity.
  - apply andb_prop in Hs. destruct Hs as [Hc Hs].
    destruct (nul c); [discriminate|]. rewrite IH by exact Hs. reflexivity.
Qed.

Section Plumbing.
Context {host : Host}.

(** [CStr2WString] returns what the host makes of the input the call
    designates, and nothing when the call designates none. *)
Lemma CStr2WString_source (mem : list byte) (length cp : Z) :
  CStr2WString (Some mem) length cp =
  match source is_nul mem length with
  | Some src => mb_decode cp src
  | None => []
  end.
Proof.
  unfold CStr2WString, MultiByteToWideChar.
  destruct (source is_nul mem length) as [src|]; [|reflexivity].
  rewrite deliver_measure.
  destruct (size (mb_decode cp src) =? 0) eqn:E.
  - apply Z.eqb_eq, size_zero in E. symmetry. exact E.
  - apply deliver_fill.
Qed.

Lemma WString2String_source (wstr : list wchar_t) (cp : Z) :
  WString2String wstr cp =
  if empty wstr then []
  else
    match source is_wnul (wc_str wstr) (static_cast_int (size wstr)) with
    | Some src => wc_encode cp src
    | None => []
    end.
Proof.
  unfold WString2String, WideCharToMultiByte.
  destruct (empty wstr); [reflexivity|].
  destruct (source is_wnul (wc_str wstr) (static_cast_int (size wstr)))
    as [src|]; [|reflexivity].
  rewrite deliver_measure.
  destruct (size (wc_encode cp src) =? 0) eqn:E.
  - apply Z.eqb_eq, size_zero in E. symmetry. exact E.
  - apply deliver_fill.
Qed.

Lemma source_whole {A : Type} (nul : A -> bool) (s tail : list A) :
  s <> [] -> size s <= INT_MAX ->
  source nul (s ++ tail) (static_cast_int (size s)) = Some s.
Proof.
  intros Hne Hmax. pose proof (size_nonneg s) as H0.
  assert (size s <> 0) by (rewrite size_zero; exact Hne).
  rewrite static_cast_int_small by lia.
  rewrite source_counted by lia.
  unfold size. rewrite Nat2Z.id.
  rewrite firstn_app, firstn_all, Nat.sub_diag. simpl.
  rewrite app_nil_r. reflexivity.
Qed.

(** Within the range of [int], the [std::string] conversions are the
    host's tables. *)
Lemma String2WString_table (str : list byte) (cp : Z) :
  str <> [] -> size str <= INT_MAX ->
  String2WString str cp = mb_decode cp str.
Proof.
  intros Hne Hmax. unfold String2WString.
  destruct str as [|b str']; [congruence|]. cbn [empty].
  rewrite CStr2WString_source. unfold c_str.
  rewrite source_whole by assumption. reflexivity.
Qed.

Lemma WString2String_table (wstr : list wchar_t) (cp : Z) :
  wstr <> [] -> size wstr <= INT_MAX ->
  WString2String wstr cp = wc_encode cp wstr.
Proof.
  intros Hne Hmax. rewrite WString2String_source.
  destruct wstr as [|u wstr']; [congruence|]. cbn [empty].
  unfold wc_str. rewrite source_whole by assumption. reflexivity.
Qed.

Lemma CStr2WString_zero (str : option (list byte)) (cp : Z) :
  CStr2WString str 0 cp = [].
Proof.
  destruct str as [mem|]; [|reflexivity].
  rewrite CStr2WString_source. reflexivity.
Qed.

End Plumbing.

(** ** The reference transcoder *)

Lemma cont_to_char (x : Z) :
  0 <= x < 64 -> cont (to_char (0x80 + x)) = Some x.
Proof.
  intros Hx. unfold cont. rewrite uchar_to_char by lia.
  replace ((128 <=? 128 + x) && (128 + x <=? 191)) with true by lia.
  f_equal. lia.
Qed.

Lemma utf8_decode_1 (b0 : byte) (t : list byte) :
  uchar b0 < 0x80 ->
  utf8_decode (b0 :: t) = uchar b0 :: utf8_decode t.
Proof.
  intros H0. apply Z.ltb_lt in H0.
  change (utf8_decode (b0 :: t)) with (utf8_decode_at utf8_decode b0 t).
  unfold utf8_decode_at. rewrite H0. reflexivity.
Qed.

Lemma utf8_decode_2 (b0 b1 : byte) (x1 : Z) (t : list byte) :
  0xC0 <= uchar b0 < 0xE0 -> cont b1 = Some x1 ->
  0x80 <= (uchar b0 - 0xC0) * 64 + x1 ->
  utf8_decode (b0 :: b1 :: t) =
  ((uchar b0 - 0xC0) * 64 + x1) :: utf8_decode t.
Proof.
  intros H0 H1 Hc. apply Z.leb_le in Hc.
  assert (E1 : (uchar b0 <? 128) = false) by lia.
  assert (E2 : (uchar b0 <? 192) = false) by lia.
  assert (E3 : (uchar b0 <? 224) = true) by lia.
  change (utf8_decode (b0 :: b1 :: t))
    with (utf8_decode_at utf8_decode b0 (b1 :: t)).
  unfold utf8_decode_at. rewrite E1, E2, E3, H1, Hc. reflexivity.
Qed.

Lemma utf8_decode_3 (b0 b1 b2 : byte) (x1 x2 : Z) (t : list byte) :
  0xE0 <= uchar b0 < 0xF0 -> cont b1 = Some x1 -> cont b2 = Some x2 ->
  0x800 <= (uchar b0 - 0xE0) * 4096 + x1 * 64 + x2 ->
  is_scalar ((uchar b0 - 0xE0) * 4096 + x1 * 64 + x2) = true ->
  utf8_decode (b0 :: b1 :: b2 :: t) =
  ((uchar b0 - 0xE0) * 4096 + x1 * 64 + x2) :: utf8_decode t.
Proof.
  intros H0 H1 H2 Hc Hs. apply Z.leb_le in Hc.
  assert (E1 : (uchar b0 <? 128) = false) by lia.
  assert (E2 : (uchar b0 <? 192) = false) by lia.
  assert (E3 : (uchar b0 <? 224) = false) by lia.
  assert (E4 : (uchar b0 <? 240) = true) by lia.
  change (utf8_decode (b0 :: b1 :: b2 :: t))
    with (utf8_decode_at utf8_decode b0 (b1 :: b2 :: t)).
  unfold utf8_decode_at. rewrite E1, E2, E3, E4, H1, H2, Hc, Hs. reflexivity.
Qed.

Lemma utf8_decode_4 (b0 b1 b2 b3 : byte) (x1 x2 x3 : Z) (t : list byte) :
  0xF0 <= uchar b0 < 0xF8 ->
  cont b1 = Some x1 -> cont b2 = Some x2 -> cont b3 = Some x3 ->
  0x10000 <= (uchar b0 - 0xF0) * 262144 + x1 * 4096 + x2 * 64 + x3
    <= 0x10FFFF ->
  utf8_decode (b0 :: b1 :: b2 :: b3 :: t) =
  ((uchar b0 - 0xF0) * 262144 + x1 * 4096 + x2 * 64 + x3) :: utf8_decode t.
Proof.
  intros H0 H1 H2 H3 Hc.
  assert (Hr : (65536 <=? (uchar b0 - 240) * 262144 + x1 * 4096 + x2 * 64 + x3)
               && ((uchar b0 - 240) * 262144 + x1 * 4096 + x2 * 64 + x3
                   <=? 1114111) = true) by lia.
  assert (E1 : (uchar b0 <? 128) = false) by lia.
  assert (E2 : (uchar b0 <? 192) = false) by lia.
  assert (E3 : (uchar b0 <? 224) = false) by lia.
  assert (E4 : (uchar b0 <? 240) = false) by lia.
  assert (E5 : (uchar b0 <? 248) = true) by lia.
  change (utf8_decode (b0 :: b1 :: b2 :: b3 :: t))
    with (utf8_decode_at utf8_decode b0 (b1 :: b2 :: b3 :: t)).
  unfold utf8_decode_at. rewrite E1, E2, E3, E4, E5, H1, H2, H3, Hr.
  reflexivity.
Qed.

Lemma utf8_decode_encode1 (c : Z) (rest : list byte) :
  is_scalar c = true ->
  utf8_decode (utf8_encode1 c ++ rest) = c :: utf8_decode rest.
Proof.
  intros Hs. pose proof Hs as Hc. apply is_scalar_range in Hc.
  unfold utf8_encode1.
  destruct (c <? 128) eqn:E1; [|destruct (c <? 2048) eqn:E2;
    [|destruct (c <? 65536) eqn:E3]]; cbn [app].
  - rewrite utf8_decode_1; rewrite uchar_to_char by lia; [reflexivity|lia].
  - rewrite (utf8_decode_2 _ _ (c mod 64));
      rewrite ?uchar_to_char by zdiv;
      [f_equal; zdiv | zdiv | apply cont_to_char; zdiv | zdiv].
  - rewrite (utf8_decode_3 _ _ _ ((c / 64) mod 64) (c mod 64));
      rewrite ?uchar_to_char by zdiv;
      try (apply cont_to_char; zdiv);
      replace ((224 + c / 4096 - 224) * 4096 + (c / 64) mod 64 * 64 + c mod 64)
        with c by zdiv; try reflexivity; try assumption; try lia; zdiv.
  - rewrite (utf8_decode_4 _ _ _ _ ((c / 4096) mod 64) ((c / 64) mod 64)
               (c mod 64));
      rewrite ?uchar_to_char by zdiv;
      try (apply cont_to_char; zdiv);
      replace ((240 + c / 262144 - 240) * 262144 + (c / 4096) mod 64 * 4096 +
               (c / 64) mod 64 * 64 + c mod 64) with c by zdiv;
      try reflexivity; try lia; zdiv.
Qed.

Lemma utf8_decode_encode (cps : list Z) :
  forallb is_scalar cps = true -> utf8_decode (utf8_encode cps) = cps.
Proof.
  induction cps as [|c cps IH]; intros H; [reflexivity|].
  simpl in H. apply andb_prop in H. destruct H as [Hc Hall].
  change (utf8_encode (c :: cps)) with (utf8_encode1 c ++ utf8_encode cps).
  rewrite utf8_decode_encode1 by exact Hc. rewrite IH by exact Hall.
  reflexivity.
Qed.

Lemma utf16_decode_encode1 (c : Z) (rest : list wchar_t) :
  is_scalar c = true ->
  utf16_decode (utf16_encode1 c ++ rest) = c :: utf16_decode rest.
Proof.
  intros Hs. apply is_scalar_range in Hs. unfold utf16_encode1.
  destruct (c <? 65536) eqn:E; cbn [app utf16_decode].
  - replace ((55296 <=? c) && (c <? 56320)) with false by lia.
    replace ((56320 <=? c) && (c <? 57344)) with false by lia. reflexivity.
  - replace ((55296 <=? 55296 + (c - 65536) / 1024) &&
             (55296 + (c - 65536) / 1024 <? 56320)) with true by zdiv.
    replace ((56320 <=? 56320 + (c - 65536) mod 1024) &&
             (56320 + (c - 65536) mod 1024 <? 57344)) with true by zdiv.
    f_equal. zdiv.
Qed.

Lemma utf16_decode_encode (cps : list Z) :
  forallb is_scalar cps = true -> utf16_decode (utf16_encode cps) = cps.
Proof.
  induction cps as [|c cps IH]; intros H; [reflexivity|].
  simpl in H. apply andb_prop in H. destruct H as [Hc Hall].
  change (utf16_encode (c :: cps)) with (utf16_encode1 c ++ utf16_encode cps).
  rewrite utf16_decode_encode1 by exact Hc. rewrite IH by exact Hall.
  reflexivity.
Qed.

(* ================================================================== *)
(** * The UTF-8 code-point counter *)

(** C1. For every NUL-terminated byte sequence made only of well-formed
    UTF-8 sequences with no embedded NUL, that is, the encoding of a list of
    non-zero Unicode scalar values followed by the terminator, [U8StrLength]
    returns exactly the number of scalar values encoded (the array fits the
    address space, so the [size_t] counter does not wrap).  The
    [std::string] overload returns the same count. *)
Theorem U8StrLength_counts_scalar_values (cps : list Z) :
  forallb nonzero_scalar cps = true ->
  size cps <= SIZE_MAX ->
  U8StrLength (Some (c_str (utf8_encode cps))) = Returned (size cps) /\
  U8StrLength_string (utf8_encode cps) = Returned (size cps).
Proof.
  intros Hall Hmax.
  assert (Hc : U8StrLength (Some (c_str (utf8_encode cps)))
               = Returned (size cps)).
  { unfold U8StrLength, c_str.
    pose proof (U8StrLength_loop_encoded cps [] [x00] 0 Hall) as Hscan.
    cbn [app List.length Nat.add] in Hscan. rewrite Hscan.
    rewrite (U8StrLength_loop_step _ _ _ x00).
    2:{ rewrite <- (app_nil_l (utf8_encode cps ++ [x00])).
        rewrite nth_error_app2 by (simpl; lia).
        simpl. rewrite Nat.sub_0_r. apply nth_error_middle. }
    change (is_nul x00) with true. cbv iota. unfold size in *.
    rewrite size_t_iter by (unfold SIZE_MAX in *; lia).
    rewrite Z.add_0_l. reflexivity. }
  split; [exact Hc|].
  unfold U8StrLength_string. destruct (utf8_encode cps) eqn:E.
  - destruct cps as [|c cps']; [reflexivity|].
    exfalso. simpl in Hall. apply andb_prop in Hall. destruct Hall as [H1 _].
    unfold nonzero_scalar in H1. apply andb_prop in H1. destruct H1 as [H1 _].
    destruct (utf8_encode1_lead c H1) as (lead & conts & Henc & _).
    change (utf8_encode (c :: cps')) with (utf8_encode1 c ++ utf8_encode cps')
      in E.
    rewrite Henc in E. discriminate.
  - cbn [empty]. exact Hc.
Qed.

(** The example of the specification: the six bytes of "héllo" hold five
    code points. *)
Lemma U8StrLength_hello :
  U8StrLength (Some ["h"; xc3; xa9; "l"; "l"; "o"; x00]%byte) = Returned 5.
Proof.
  exact (proj1 (U8StrLength_counts_scalar_values [104; 233; 108; 108; 111]
                  eq_refl ltac:(unfold size, SIZE_MAX; simpl; lia))).
Defined.

Lemma declared_sequence_inv (seq : list byte) :
  declared_sequence seq = true ->
  exists lead conts,
    seq = lead :: conts /\ is_nul lead = false /\
    lead_width (uchar lead) = Some (S (List.length conts)).
Proof.
  destruct seq as [|lead conts]; [discriminate|]. cbn [declared_sequence].
  intros H. apply andb_prop in H. destruct H as [Hnz Hw].
  exists lead, conts. split; [reflexivity|].
  split; [destruct (is_nul lead); [discriminate | reflexivity]|].
  destruct (lead_width (uchar lead)) as [w|]; [|discriminate].
  apply Nat.eqb_eq in Hw. subst w. reflexivity.
Qed.

(** Scanning over sequences moves the pointer to their end and counts once
    per sequence, whatever the bytes after each lead byte are. *)
Lemma U8StrLength_loop_sequences (seqs : list (list byte)) :
  forall (pre rest : list byte) (count : Z),
  forallb declared_sequence seqs = true ->
  U8StrLength_loop (pre ++ List.concat seqs ++ rest) (List.length pre) count =
  U8StrLength_loop (pre ++ List.concat seqs ++ rest)
    (List.length pre + List.length (List.concat seqs))
    (Nat.iter (List.length seqs) (fun k => size_t (k + 1)) count).
Proof.
  induction seqs as [|seq seqs IH]; intros pre rest count Hall.
  - simpl. rewrite Nat.add_0_r. reflexivity.
  - simpl in Hall. apply andb_prop in Hall. destruct Hall as [Hseq Hall'].
    destruct (declared_sequence_inv seq Hseq)
      as (lead & conts & Hs & Hnul & Hw).
    change (List.concat (seq :: seqs)) with (seq ++ List.concat seqs).
    rewrite (U8StrLength_loop_step _ _ _ lead).
    2:{ rewrite Hs. simpl. apply nth_error_middle. }
    rewrite Hnul, Hw.
    specialize (IH (pre ++ seq) rest (size_t (count + 1)) Hall').
    rewrite <- !app_assoc in IH. rewrite <- !app_assoc.
    rewrite length_app in IH. rewrite length_app.
    change (List.length (seq :: seqs)) with (S (List.length seqs)).
    rewrite Nat.iter_succ_r.
    replace (List.length pre + S (List.length conts))%nat
      with (List.length pre + List.length seq)%nat
      by (rewrite Hs; reflexivity).
    rewrite IH. f_equal. lia.
Qed.

(** C2. [U8StrLength] runs its loop from the first byte with a count of
    zero, and the loop classifies each lead byte by its high-bit pattern
    alone.  At a byte other than the terminator that declares a width [w]
    (one of the four lead patterns) the pointer advances by [w] and the
    count by one, whatever the bytes in between are; at a byte that matches
    none of the four patterns the loop stops and the count accumulated so
    far is returned.  So, for any run of sequences, each a lead byte with
    the number of bytes it declares and no check on them, followed by the
    terminator or by a byte of no pattern, [U8StrLength] returns the number
    of sequences.  In particular a sequence that starts with [0xFF]
    yields 0. *)
Theorem U8StrLength_classifies_lead_bytes :
  (forall mem : list byte,
     U8StrLength (Some mem) = U8StrLength_loop mem 0 0) /\
  (forall (mem : list byte) (str : nat) (count : Z) (ch : byte),
     nth_error mem str = Some ch -> is_nul ch = false ->
     U8StrLength_loop mem str count =
     match lead_width (uchar ch) with
     | Some w => U8StrLength_loop mem (str + w) (size_t (count + 1))
     | None => Returned count
     end) /\
  (forall (seqs : list (list byte)) (stop : byte) (rest : list byte),
     forallb declared_sequence seqs = true ->
     size seqs <= SIZE_MAX ->
     is_nul stop = true \/ lead_width (uchar stop) = None ->
     U8StrLength (Some (List.concat seqs ++ stop :: rest))
       = Returned (size seqs)) /\
  (forall rest : list byte, U8StrLength (Some (xff :: rest)) = Returned 0).
Proof.
  split; [reflexivity|]. split; [|split].
  - intros mem str count ch Hch Hnz.
    rewrite (U8StrLength_loop_step _ _ _ ch Hch), Hnz. reflexivity.
  - intros seqs stop rest Hall Hmax Hstop. unfold U8StrLength.
    pose proof (U8StrLength_loop_sequences seqs [] (stop :: rest) 0 Hall)
      as Hscan.
    cbn [app List.length Nat.add] in Hscan. rewrite Hscan.
    rewrite (U8StrLength_loop_step _ _ _ stop) by apply nth_error_middle.
    unfold size in *.
    rewrite size_t_iter by (unfold SIZE_MAX in *; lia).
    rewrite Z.add_0_l.
    destruct Hstop as [Hnul|Hnone]; [rewrite Hnul; reflexivity|].
    rewrite Hnone. destruct (is_nul stop); reflexivity.
  - intros rest. unfold U8StrLength.
    rewrite (U8StrLength_loop_step (xff :: rest) 0 0 xff eq_refl). reflexivity.
Qed.

(** A two-byte lead followed by a byte that is no continuation byte, and a
    three-byte lead followed by a NUL, are each counted as one sequence;
    the count stops at [0xFF]. *)
Lemma U8StrLength_unvalidated_continuation :
  U8StrLength (Some [xc3; "("; xe2; x00; "a"; xff; "z"]%byte) = Returned 2.
Proof.
  destruct U8StrLength_classifies_lead_bytes as (_ & _ & H & _).
  apply (H [[xc3; "("]; [xe2; x00; "a"]]%byte xff ["z"]%byte).
  - reflexivity.
  - unfold size, SIZE_MAX. simpl. lia.
  - right. reflexivity.
Defined.

Lemma lead_width_not_nul (b : byte) (w : nat) :
  lead_width (uchar b) = Some w -> (1 < w)%nat -> is_nul b = false.
Proof.
  intros Hw Hlt. destruct (is_nul b) eqn:E; [|reflexivity].
  apply Byte.byte_dec_bl in E. subst b. cbv in Hw.
  injection Hw as Hw. lia.
Qed.

(** C10. When the text ends in a truncated multi-byte sequence, a lead byte
    that declares [w] bytes with fewer than [w - 1] bytes left before the
    terminator, the pointer steps over the terminator and the next read is
    past the end of the array. *)
Theorem U8StrLength_truncated_tail_reads_past_end
    (cps : list Z) (lead : byte) (conts : list byte) (w : nat) :
  forallb nonzero_scalar cps = true ->
  lead_width (uchar lead) = Some w ->
  (List.length conts < w - 1)%nat ->
  U8StrLength (Some (c_str (utf8_encode cps ++ lead :: conts))) = ReadPastEnd.
Proof.
  intros Hall Hw Hlen. unfold U8StrLength, c_str.
  rewrite <- app_assoc.
  pose proof (U8StrLength_loop_encoded cps [] ((lead :: conts) ++ [x00]) 0 Hall)
    as Hscan.
  cbn [app List.length Nat.add] in Hscan. cbn [app]. rewrite Hscan.
  set (count := Nat.iter _ _ _). clearbody count.
  rewrite (U8StrLength_loop_step _ _ _ lead) by apply nth_error_middle.
  rewrite (lead_width_not_nul lead w Hw) by lia. rewrite Hw.
  rewrite U8StrLength_loop_eq.
  replace (nth_error _ _) with (@None byte); [reflexivity|].
  symmetry. apply nth_error_None.
  rewrite length_app. cbn [List.length]. rewrite length_app.
  cbn [List.length]. lia.
Qed.

(** A three-byte lead with a single byte left before the terminator. *)
Lemma U8StrLength_truncated_euro :
  U8StrLength (Some [xe2; x82; x00]%byte) = ReadPastEnd.
Proof.
  exact (U8StrLength_truncated_tail_reads_past_end [] xe2 [x82]%byte 3%nat
           eq_refl eq_refl ltac:(simpl; lia)).
Defined.

(* ================================================================== *)
(** * The conversions *)

Lemma utf8_encode1_length (c : Z) :
  (1 <= List.length (utf16_encode1 c) <= List.length (utf8_encode1 c))%nat.
Proof.
  unfold utf16_encode1, utf8_encode1.
  destruct (c <? 128) eqn:E1; destruct (c <? 2048) eqn:E2;
    destruct (c <? 65536) eqn:E3; simpl; lia.
Qed.

Lemma utf16_encode_size (cps : list Z) :
  size (utf16_encode cps) <= size (utf8_encode cps).
Proof.
  unfold size. induction cps as [|c cps IH]; [simpl; lia|].
  change (utf16_encode (c :: cps)) with (utf16_encode1 c ++ utf16_encode cps).
  change (utf8_encode (c :: cps)) with (utf8_encode1 c ++ utf8_encode cps).
  rewrite !length_app. pose proof (utf8_encode1_length c). lia.
Qed.

Section Conversions.
Context {host : Host}.

Lemma CStr2WString_unreported (mem : list byte) (length cp : Z) :
  reported_wide cp mem length = 0 -> CStr2WString (Some mem) length cp = [].
Proof.
  unfold reported_wide, CStr2WString. intros H. rewrite H. reflexivity.
Qed.

Lemma WString2String_unreported (wstr : list wchar_t) (cp : Z) :
  reported_narrow cp wstr = 0 -> WString2String wstr cp = [].
Proof.
  unfold reported_narrow, WString2String. intros H. rewrite H.
  destruct (empty wstr); reflexivity.
Qed.

Lemma String2WString_unreported (str : list byte) (cp : Z) :
  reported_wide cp (c_str str) (static_cast_int (size str)) = 0 ->
  String2WString str cp = [].
Proof.
  intros H. unfold String2WString. destruct (empty str); [reflexivity|].
  apply CStr2WString_unreported. exact H.
Qed.

Lemma WString2String_nil (cp : Z) : WString2String [] cp = [].
Proof. reflexivity. Qed.

(** The guards of the conversions.  Each returns a plain string, which is
    empty when the function is given a null pointer, an empty
    [std::string] or [std::wstring], or a byte count of [0], and
    when the host reports zero converted units (for the two-stage
    conversions: in either stage).  [U8StrLength] returns 0 for a null
    pointer and for an empty string. *)
Theorem conversions_degrade_to_empty :
  (* a null pointer *)
  (forall length cp, CStr2WString None length cp = []) /\
  (forall length, U8CStr2WString None length = []) /\
  (forall length, U8CStr2String None length = []) /\
  (* an empty string object *)
  (forall cp, String2WString [] cp = []) /\
  (forall cp, WString2String [] cp = []) /\
  U8String2WString [] = [] /\
  WString2U8String [] = [] /\
  U8String2String [] = [] /\
  String2U8String [] = [] /\
  (* a byte count of zero *)
  (forall str cp, CStr2WString str 0 cp = []) /\
  (forall str, U8CStr2WString str 0 = []) /\
  (forall str, U8CStr2String str 0 = []) /\
  (* the host reports zero converted units *)
  (forall mem length cp,
     reported_wide cp mem length = 0 ->
     CStr2WString (Some mem) length cp = []) /\
  (forall str cp,
     reported_wide cp (c_str str) (static_cast_int (size str)) = 0 ->
     String2WString str cp = []) /\
  (forall wstr cp,
     reported_narrow cp wstr = 0 -> WString2String wstr cp = []) /\
  (forall mem length,
     reported_wide CP_UTF8 mem length = 0 ->
     U8CStr2WString (Some mem) length = [] /\
     U8CStr2String (Some mem) length = []) /\
  (forall str,
     reported_wide CP_UTF8 (c_str str) (static_cast_int (size str)) = 0 ->
     U8String2WString str = [] /\ U8String2String str = []) /\
  (forall wstr,
     reported_narrow CP_UTF8 wstr = 0 -> WString2U8String wstr = []) /\
  (forall str,
     reported_wide CP_ACP (c_str str) (static_cast_int (size str)) = 0 ->
     String2U8String str = []) /\
  (forall str length,
     reported_narrow CP_ACP (U8CStr2WString str length) = 0 ->
     U8CStr2String str length = []) /\
  (forall str,
     reported_narrow CP_ACP
       (U8CStr2WString (Some (c_str str)) (static_cast_int (size str))) = 0 ->
     U8String2String str = []) /\
  (forall str,
     reported_narrow CP_UTF8 (String2WString str CP_ACP) = 0 ->
     String2U8String str = []) /\
  (* the counter *)
  U8StrLength None = Returned 0 /\
  U8StrLength (Some (c_str [])) = Returned 0 /\
  U8StrLength_string [] = Returned 0.
Proof.
  repeat match goal with |- _ /\ _ => split end;
    try reflexivity.
  - intros str cp. apply CStr2WString_zero.
  - intros [mem|]; reflexivity.
  - intros [mem|]; reflexivity.
  - intros mem length cp. apply CStr2WString_unreported.
  - intros str cp. apply String2WString_unreported.
  - intros wstr cp. apply WString2String_unreported.
  - intros mem length H.
    assert (Hw : U8CStr2WString (Some mem) length = []).
    { unfold U8CStr2WString. destruct (length =? 0); [reflexivity|].
      apply CStr2WString_unreported. exact H. }
    split; [exact Hw|].
    unfold U8CStr2String. destruct (length =? 0) eqn:E; [reflexivity|].
    cbv zeta. rewrite Hw. reflexivity.
  - intros str H.
    assert (Hw : U8String2WString str = []).
    { unfold U8String2WString. destruct (empty str); [reflexivity|].
      apply String2WString_unreported. exact H. }
    split; [exact Hw|].
    unfold U8String2String. destruct (empty str); [reflexivity|].
    unfold U8CStr2String, U8CStr2WString.
    destruct (static_cast_int (size str) =? 0); [reflexivity|].
    cbv zeta. rewrite CStr2WString_unreported by exact H. reflexivity.
  - intros wstr H. unfold WString2U8String.
    destruct (empty wstr); [reflexivity|].
    apply WString2String_unreported. exact H.
  - intros str H. unfold String2U8String.
    destruct (empty str); [reflexivity|]. cbv zeta.
    rewrite String2WString_unreported by exact H. reflexivity.
  - intros str length H. unfold U8CStr2String.
    destruct str as [mem|]; [|reflexivity].
    destruct (length =? 0); [reflexivity|]. cbv zeta.
    apply WString2String_unreported. exact H.
  - intros str H. unfold U8String2String.
    destruct (empty str); [reflexivity|]. unfold U8CStr2String.
    destruct (static_cast_int (size str) =? 0); [reflexivity|]. cbv zeta.
    apply WString2String_unreported. exact H.
  - intros str H. unfold String2U8String.
    destruct (empty str); [reflexivity|]. cbv zeta.
    unfold WString2U8String.
    destruct (empty (String2WString str CP_ACP)); [reflexivity|].
    apply WString2String_unreported. exact H.
Qed.

Lemma U8CStr2String_compose (utf8_str : option (list byte)) (length : Z) :
  U8CStr2String utf8_str length =
  WString2String (U8CStr2WString utf8_str length) CP_ACP.
Proof.
  destruct utf8_str as [mem|]; [|reflexivity]. unfold U8CStr2String.
  destruct (length =? 0) eqn:E; [|reflexivity].
  unfold U8CStr2WString. rewrite E. reflexivity.
Qed.

(** The guard of [U8CStr2WString] on a zero length changes nothing. *)
Lemma U8CStr2WString_unguarded (str : option (list byte)) (length : Z) :
  U8CStr2WString str length = CStr2WString str length CP_UTF8.
Proof.
  destruct str as [mem|]; [|reflexivity]. unfold U8CStr2WString.
  destruct (length =? 0) eqn:E; [|reflexivity].
  apply Z.eqb_eq in E. subst length. symmetry. apply CStr2WString_zero.
Qed.

Lemma U8String2String_compose (utf8_str : list byte) :
  U8String2String utf8_str =
  WString2String (U8String2WString utf8_str) CP_ACP.
Proof.
  destruct utf8_str as [|b str]; [reflexivity|].
  unfold U8String2String, U8String2WString, String2WString. cbn [empty].
  rewrite U8CStr2String_compose, U8CStr2WString_unguarded. reflexivity.
Qed.

Lemma String2U8String_compose (str : list byte) :
  String2U8String str = WString2U8String (String2WString str CP_ACP).
Proof. destruct str; reflexivity. Qed.

(** C4. Each two-stage conversion is the composition of the two
    conversions through the wide string, for every input: the UTF-8 code
    page into the wide string and the wide string into the system code
    page, or the system code page into the wide string and the wide string
    into UTF-8.  The host is reached through those two conversions only. *)
Theorem two_stage_conversions_compose :
  (forall utf8_str length,
     U8CStr2String utf8_str length =
     WString2String (U8CStr2WString utf8_str length) CP_ACP) /\
  (forall utf8_str length,
     U8CStr2String utf8_str length =
     WString2String (CStr2WString utf8_str length CP_UTF8) CP_ACP) /\
  (forall utf8_str,
     U8String2String utf8_str =
     WString2String
       (U8CStr2WString (Some (c_str utf8_str))
          (static_cast_int (size utf8_str))) CP_ACP) /\
  (forall utf8_str,
     U8String2String utf8_str =
     WString2String (U8String2WString utf8_str) CP_ACP) /\
  (forall str,
     String2U8String str = WString2U8String (String2WString str CP_ACP)) /\
  (forall str,
     String2U8String str =
     WString2String (String2WString str CP_ACP) CP_UTF8).
Proof.
  repeat match goal with |- _ /\ _ => split end.
  - exact U8CStr2String_compose.
  - intros utf8_str length.
    rewrite U8CStr2String_compose, U8CStr2WString_unguarded. reflexivity.
  - intros [|b str]; [reflexivity|]. unfold U8String2String. cbn [empty].
    apply U8CStr2String_compose.
  - exact U8String2String_compose.
  - exact String2U8String_compose.
  - intros str. rewrite String2U8String_compose. unfold WString2U8String.
    destruct (String2WString str CP_ACP); reflexivity.
Qed.



End Conversions.


(** A call the reference host fails (a byte count of zero) yields the empty
    string. *)
Lemma CStr2WString_failed_call :
  @reported_wide reference_host CP_ACP (c_str ["a"]%byte) 0 = 0 /\
  @CStr2WString reference_host (Some (c_str ["a"]%byte)) 0 CP_ACP = [].
Proof.
  split; [reflexivity|].
  destruct (@conversions_degrade_to_empty reference_host)
    as (_ & _ & _ & _ & _ & _ & _ & _ & _ & _ & _ & _ & H & _).
  apply H. reflexivity.
Defined.

(** C3. The empty C string with the default length argument: the host
    decodes the terminator, reports one unit, and [CStr2WString] returns
    the one-character string that holds it, and so do the UTF-8 variants
    built on it; the [std::string] conversion, the zero-length guard and
    [WideToUTF8], which strips the terminator, return the empty string for
    the same text. *)
Theorem CStr2WString_empty_c_string_keeps_terminator :
  @CStr2WString reference_host (Some (c_str [])) (-1) CP_ACP = [0] /\
  @U8CStr2WString reference_host (Some (c_str [])) (-1) = [0] /\
  @U8CStr2String reference_host (Some (c_str [])) (-1) = [x00] /\
  @String2WString reference_host [] CP_ACP = [] /\
  @U8CStr2WString reference_host (Some (c_str [])) 0 = [] /\
  @utf8_args.win32.WideToUTF8 reference_host (Some (wc_str [])) = [].
Proof. repeat split. Qed.

(* ================================================================== *)
(** * The argument decoder *)

Import utf8_args.

Lemma flat_map_nil_inv {A B : Type} (f : A -> list B) (l : list A) :
  (forall a, f a <> []) -> flat_map f l = [] -> l = [].
Proof.
  intros Hf. destruct l as [|a l]; [reflexivity|]. simpl. intros H.
  apply app_eq_nil in H. destruct H as [H _]. apply Hf in H. contradiction.
Qed.

Lemma utf16_encode_no_nul (cps : list Z) :
  forallb nonzero_scalar cps = true ->
  forallb (fun u => negb (is_wnul u)) (utf16_encode cps) = true.
Proof.
  induction cps as [|c cps IH]; intros H; [reflexivity|].
  simpl in H. apply andb_prop in H. destruct H as [Hc Hall].
  change (utf16_encode (c :: cps)) with (utf16_encode1 c ++ utf16_encode cps).
  rewrite forallb_app, IH by exact Hall. rewrite andb_true_r.
  unfold nonzero_scalar in Hc. apply andb_prop in Hc. destruct Hc as [Hs Hnz].
  apply is_scalar_range in Hs. unfold utf16_encode1, is_wnul.
  destruct (c <? 65536) eqn:E; cbn [forallb]; rewrite ?andb_true_r.
  - exact Hnz.
  - replace (55296 + (c - 65536) / 1024 =? 0) with false by zdiv.
    replace (56320 + (c - 65536) mod 1024 =? 0) with false by zdiv.
    reflexivity.
Qed.

Lemma nonzero_scalars_scalars (cps : list Z) :
  forallb nonzero_scalar cps = true -> forallb is_scalar cps = true.
Proof.
  induction cps as [|c cps IH]; intros H; [reflexivity|].
  simpl in *. apply andb_prop in H. destruct H as [Hc Hall].
  unfold nonzero_scalar in Hc. apply andb_prop in Hc. destruct Hc as [Hs _].
  rewrite Hs, IH by exact Hall. reflexivity.
Qed.

Lemma skipn_nth_error {A : Type} (l : list A) :
  forall (i : nat) (a : A),
  nth_error l i = Some a -> skipn i l = a :: skipn (S i) l.
Proof.
  induction l as [|x l IH]; intros [|i] a H; try discriminate.
  - injection H as H. subst x. reflexivity.
  - simpl in H. cbn [skipn]. rewrite (IH i a H). reflexivity.
Qed.

Section Decoder.
Context {host : Host}.

(** [WideToUTF8] returns what the host makes of the string through its
    terminator, without the last byte. *)
Lemma WideToUTF8_source (mem : list wchar_t) :
  win32.WideToUTF8 (Some mem) =
  removelast (wc_encode CP_UTF8 (through_nul is_wnul mem)).
Proof.
  unfold win32.WideToUTF8, WideCharToMultiByte. rewrite source_sentinel.
  set (out := wc_encode CP_UTF8 (through_nul is_wnul mem)).
  rewrite deliver_measure. pose proof (size_nonneg out) as H0.
  destruct (size out <=? 0) eqn:E.
  - assert (out = []) by (apply size_zero; lia). rewrite H. reflexivity.
  - unfold deliver. replace (size out =? 0) with false by lia.
    rewrite Z.leb_refl. cbn [snd].
    unfold store, c_str, vector.
    rewrite skipn_all2
      by (rewrite length_app, repeat_length; unfold size in *; simpl; lia).
    rewrite app_nil_r.
    replace (Z.to_nat (size out - 1)) with (List.length out - 1)%nat
      by (unfold size; lia).
    destruct out as [|b out'] using rev_ind.
    + reflexivity.
    + rewrite removelast_last, length_app. simpl.
      replace (List.length out' + 1 - 1)%nat with (List.length out' + 0)%nat
        by lia.
      rewrite firstn_app_2. simpl. apply app_nil_r.
Qed.

(** On a conforming host, an argument that holds the UTF-16 encoding of a
    text comes out as the UTF-8 encoding of that text. *)
Lemma WideToUTF8_transcodes (text : list Z) :
  utf8_conformant host ->
  forallb nonzero_scalar text = true ->
  win32.WideToUTF8 (Some (wc_str (utf16_encode text))) = utf8_encode text.
Proof.
  intros Hhost Htext. rewrite WideToUTF8_source. unfold wc_str.
  rewrite through_nul_terminated
    by (first [apply utf16_encode_no_nul; exact Htext | reflexivity]).
  change [0] with (utf16_encode [0]).
  unfold utf16_encode. rewrite <- flat_map_app.
  fold (utf16_encode (text ++ [0])).
  destruct (Hhost (text ++ [0])) as [_ Henc].
  { rewrite forallb_app, nonzero_scalars_scalars by exact Htext. reflexivity. }
  rewrite Henc. unfold utf8_encode. rewrite flat_map_app.
  change (flat_map utf8_encode1 [0]) with [x00].
  apply removelast_last.
Qed.

Lemma emplace_args_map (argv_w : list (list wchar_t)) :
  forall (n i : nat) (utf8_args : list (list byte)),
  (i + n <= List.length argv_w)%nat ->
  win32.emplace_args argv_w i n utf8_args =
  utf8_args ++
  map (fun a => win32.WideToUTF8 (Some a)) (firstn n (skipn i argv_w)).
Proof.
  induction n as [|n IH]; intros i utf8_args Hle.
  - simpl. rewrite app_nil_r. reflexivity.
  - cbn [win32.emplace_args]. rewrite IH by lia.
    destruct (nth_error argv_w i) as [a|] eqn:Ei.
    2:{ apply nth_error_None in Ei. lia. }
    rewrite (skipn_nth_error _ _ _ Ei). cbn [firstn map].
    rewrite <- app_assoc. reflexivity.
Qed.

Context {shell : Shell}.

Lemma GetUTF8CommandLineArgs_parsed (argv_w : list (list wchar_t)) :
  CommandLineToArgvW GetCommandLineW = Some argv_w ->
  win32.GetUTF8CommandLineArgs =
  (map (fun a => win32.WideToUTF8 (Some a)) argv_w, []).
Proof.
  intros Hparse. unfold win32.GetUTF8CommandLineArgs. rewrite Hparse.
  unfold size. rewrite Nat2Z.id.
  rewrite emplace_args_map by lia. cbn [app skipn].
  rewrite firstn_all. reflexivity.
Qed.

End Decoder.

(** C7. The argument decoder preserves the native argument list.  Where
    [_WIN32] is defined: the list holds, in the order of the parsed array
    and in its number, the conversion of each wide argument, which on a
    conforming host is the UTF-8 encoding of the argument's text; when the
    parser returns no array the list is empty.  Elsewhere: the list holds
    the [argc] arguments of [argv] as they are, byte for byte. *)
Theorem GetUTF8CommandLineArgs_preserves_arguments :
  (forall (host : Host) (shell : Shell) (argv_w : list (list wchar_t)),
     CommandLineToArgvW GetCommandLineW = Some argv_w ->
     fst win32.GetUTF8CommandLineArgs =
       map (fun a => win32.WideToUTF8 (Some a)) argv_w /\
     List.length (fst win32.GetUTF8CommandLineArgs) = List.length argv_w) /\
  (forall (host : Host) (shell : Shell) (texts : list (list Z)),
     utf8_conformant host ->
     forallb (forallb nonzero_scalar) texts = true ->
     CommandLineToArgvW GetCommandLineW =
       Some (map (fun text => wc_str (utf16_encode text)) texts) ->
     fst win32.GetUTF8CommandLineArgs = map utf8_encode texts) /\
  (forall (host : Host) (shell : Shell),
     CommandLineToArgvW GetCommandLineW = None ->
     fst win32.GetUTF8CommandLineArgs = []) /\
  (forall (argc : Z) (argv : list (list byte)),
     argc = size argv ->
     posix.GetUTF8CommandLineArgs argc argv = map (before_nul is_nul) argv /\
     size (posix.GetUTF8CommandLineArgs argc argv) = argc) /\
  (forall args : list (list byte),
     forallb (forallb (fun c => negb (is_nul c))) args = true ->
     posix.GetUTF8CommandLineArgs (size args) (map c_str args) = args).
Proof.
  repeat match goal with |- _ /\ _ => split end.
  - intros host shell argv_w Hparse.
    rewrite (GetUTF8CommandLineArgs_parsed argv_w Hparse). cbn [fst].
    split; [reflexivity|]. apply length_map.
  - intros host shell texts Hhost Htexts Hparse.
    rewrite (GetUTF8CommandLineArgs_parsed _ Hparse). cbn [fst].
    rewrite map_map. apply map_ext_in. intros text Hin.
    apply WideToUTF8_transcodes; [exact Hhost|].
    rewrite forallb_forall in Htexts. apply Htexts. exact Hin.
  - intros host shell Hparse. unfold win32.GetUTF8CommandLineArgs.
    rewrite Hparse. reflexivity.
  - intros argc argv Hargc. subst argc. unfold posix.GetUTF8CommandLineArgs.
    unfold size. rewrite Nat2Z.id, firstn_all, length_map.
    split; reflexivity.
  - intros args Hargs. unfold posix.GetUTF8CommandLineArgs.
    unfold size. rewrite Nat2Z.id.
    rewrite <- (length_map c_str args), firstn_all, map_map.
    rewrite <- (map_id args) at 2. apply map_ext_in. intros s Hin.
    rewrite forallb_forall in Hargs. unfold c_str.
    apply before_nul_terminated; [apply Hargs; exact Hin | reflexivity].
Qed.

(** C8. Where [_WIN32] is defined: when the parser returns no array the
    decoder writes one diagnostic line to [stderr] and returns the empty
    list; it writes nothing in any other case. *)
Theorem GetUTF8CommandLineArgs_reports_parse_failure
    (host : Host) (shell : Shell) :
  (CommandLineToArgvW GetCommandLineW = None ->
   win32.GetUTF8CommandLineArgs = ([], [win32.diagnostic]) /\
   lines_written (snd win32.GetUTF8CommandLineArgs) = 1%nat) /\
  (snd win32.GetUTF8CommandLineArgs <> [] ->
   CommandLineToArgvW GetCommandLineW = None) /\
  (CommandLineToArgvW GetCommandLineW <> None ->
   lines_written (snd win32.GetUTF8CommandLineArgs) = 0%nat).
Proof.
  unfold win32.GetUTF8CommandLineArgs.
  destruct (CommandLineToArgvW GetCommandLineW) as [argv_w|].
  - repeat split; try discriminate. cbn [snd]. intros H. congruence.
  - repeat split; congruence.
Qed.

(* ================================================================== *)
(** * Round trips *)

Lemma reference_host_conformant : utf8_conformant reference_host.
Proof.
  intros cps Hcps. unfold mb_decode, wc_encode, reference_host.
  rewrite Z.eqb_refl.
  rewrite utf8_decode_encode, utf16_decode_encode by exact Hcps.
  split; reflexivity.
Qed.

Lemma utf16_encode_nonempty (c : Z) (cps : list Z) :
  utf16_encode (c :: cps) <> [].
Proof.
  change (utf16_encode (c :: cps)) with (utf16_encode1 c ++ utf16_encode cps).
  pose proof (utf8_encode1_length c) as H.
  destruct (utf16_encode1 c); [simpl in H; lia | discriminate].
Qed.

Lemma utf8_encode_nonempty (c : Z) (cps : list Z) :
  utf8_encode (c :: cps) <> [].
Proof.
  change (utf8_encode (c :: cps)) with (utf8_encode1 c ++ utf8_encode cps).
  pose proof (utf8_encode1_length c) as H.
  destruct (utf8_encode1 c); [simpl in H; lia | discriminate].
Qed.

Section RoundTrips.
Context {host : Host}.

Lemma U8String2WString_table (cps : list Z) :
  utf8_conformant host ->
  forallb is_scalar cps = true ->
  size (utf8_encode cps) <= INT_MAX ->
  U8String2WString (utf8_encode cps) = utf16_encode cps.
Proof.
  intros Hhost Hcps Hmax. destruct cps as [|c cps]; [reflexivity|].
  pose proof (utf8_encode_nonempty c cps) as Hne.
  unfold U8String2WString.
  destruct (utf8_encode (c :: cps)) as [|b s] eqn:E; [congruence|].
  cbn [empty]. rewrite <- E in *.
  rewrite String2WString_table by assumption.
  apply Hhost. exact Hcps.
Qed.

(** C5, as amended.  On a conforming host, every valid UTF-8 byte
    sequence of at most [INT_MAX] bytes survives the conversion to a wide
    string and back unchanged. *)
Theorem utf8_wide_round_trip (cps : list Z) :
  utf8_conformant host ->
  forallb is_scalar cps = true ->
  size (utf8_encode cps) <= INT_MAX ->
  WString2U8String (U8String2WString (utf8_encode cps)) = utf8_encode cps.
Proof.
  intros Hhost Hcps Hmax.
  rewrite U8String2WString_table by assumption.
  destruct cps as [|c cps]; [reflexivity|].
  pose proof (utf16_encode_nonempty c cps) as Hne.
  pose proof (utf16_encode_size (c :: cps)) as Hle.
  unfold WString2U8String.
  destruct (utf16_encode (c :: cps)) as [|u w] eqn:E; [congruence|].
  cbn [empty]. rewrite <- E in *.
  rewrite WString2String_table by (assumption || lia).
  apply Hhost. exact Hcps.
Qed.

(** C6, as amended.  On a conforming host, every valid UTF-8 byte sequence
    whose text is expressible without loss in the system code page, and
    takes at most [INT_MAX] bytes in UTF-8 and in the system code page,
    survives the conversion to the system code page and back unchanged. *)
Theorem utf8_system_round_trip (cps : list Z) :
  utf8_conformant host ->
  forallb is_scalar cps = true ->
  expressible_in_ACP host (utf16_encode cps) ->
  size (utf8_encode cps) <= INT_MAX ->
  size (wc_encode CP_ACP (utf16_encode cps)) <= INT_MAX ->
  String2U8String (U8String2String (utf8_encode cps)) = utf8_encode cps.
Proof.
  intros Hhost Hcps [Hback Hsome] Hmax Hmax'.
  rewrite U8String2String_compose, String2U8String_compose.
  rewrite U8String2WString_table by assumption.
  destruct cps as [|c cps]; [reflexivity|].
  pose proof (utf16_encode_nonempty c cps) as Hne.
  pose proof (utf16_encode_size (c :: cps)) as Hle.
  rewrite WString2String_table by (assumption || lia).
  rewrite String2WString_table by (auto || lia).
  rewrite Hback.
  unfold WString2U8String.
  destruct (utf16_encode (c :: cps)) as [|u w] eqn:E; [congruence|].
  cbn [empty]. rewrite <- E in *.
  rewrite WString2String_table by (assumption || lia).
  apply Hhost. exact Hcps.
Qed.

(** A string whose size is a multiple of [2^32] is converted as if it had
    no bytes at all. *)
Lemma U8String2WString_wrapped (str : list byte) :
  static_cast_int (size str) = 0 -> U8String2WString str = [].
Proof.
  intros Hw. unfold U8String2WString, String2WString.
  destruct (empty str); [reflexivity|]. rewrite Hw.
  apply CStr2WString_zero.
Qed.

Lemma U8String2String_wrapped (str : list byte) :
  static_cast_int (size str) = 0 -> U8String2String str = [].
Proof.
  intros Hw. unfold U8String2String.
  destruct (empty str); [reflexivity|]. rewrite Hw. reflexivity.
Qed.

End RoundTrips.

Lemma utf8_encode_letters (n : nat) :
  utf8_encode (repeat 97 n) = repeat "a"%byte n.
Proof.
  induction n as [|n IH]; [reflexivity|].
  change (repeat 97 (S n)) with (97 :: repeat 97 n).
  change (utf8_encode (97 :: repeat 97 n))
    with (utf8_encode1 97 ++ utf8_encode (repeat 97 n)).
  rewrite IH. reflexivity.
Qed.

Lemma utf16_encode_letters (n : nat) :
  utf16_encode (repeat 97 n) = repeat 97 n.
Proof.
  induction n as [|n IH]; [reflexivity|].
  change (repeat 97 (S n)) with (97 :: repeat 97 n) at 1.
  change (utf16_encode (97 :: repeat 97 n))
    with (utf16_encode1 97 ++ utf16_encode (repeat 97 n)).
  rewrite IH. reflexivity.
Qed.

Lemma letters_scalar (n : nat) : forallb is_scalar (repeat 97 n) = true.
Proof. induction n as [|n IH]; [reflexivity|]. simpl. exact IH. Qed.

Lemma letters_size (n : nat) : size (utf8_encode (repeat 97 n)) = Z.of_nat n.
Proof.
  unfold size. rewrite utf8_encode_letters, repeat_length. reflexivity.
Qed.

Lemma four_GiB_size : Z.of_nat four_GiB = 4294967296.
Proof. unfold four_GiB. apply positive_nat_Z. Qed.

Lemma letters_not_empty (n : nat) :
  Z.of_nat n = 4294967296 -> utf8_encode (repeat 97 n) <> [].
Proof.
  intros Hn H. apply (f_equal (@size byte)) in H.
  rewrite letters_size in H. unfold size in H. cbn [List.length] in H. lia.
Qed.

Lemma letters_expressible (n : nat) :
  Z.of_nat n = 4294967296 ->
  expressible_in_ACP reference_host (utf16_encode (repeat 97 n)).
Proof.
  intros Hn. rewrite utf16_encode_letters. unfold expressible_in_ACP.
  change (@wc_encode reference_host CP_ACP (repeat 97 n))
    with (latin1_encode (repeat 97 n)).
  unfold latin1_encode. rewrite map_repeat.
  split.
  - change (@mb_decode reference_host CP_ACP ?x) with (latin1_decode x).
    unfold latin1_decode. rewrite map_repeat. reflexivity.
  - intros _ H. apply (f_equal (@List.length byte)) in H.
    rewrite repeat_length in H. cbn [List.length] in H. lia.
Qed.

(** C5 as stated fails: the [2^32] letters "a" are valid UTF-8, their size
    converts to the [int] 0, and the round trip returns the empty string. *)
Lemma utf8_wide_round_trip_fails_at_4GiB :
  utf8_conformant reference_host /\
  forallb is_scalar (repeat 97 four_GiB) = true /\
  @WString2U8String reference_host
    (@U8String2WString reference_host (utf8_encode (repeat 97 four_GiB)))
  <> utf8_encode (repeat 97 four_GiB).
Proof.
  split; [exact reference_host_conformant|].
  split; [apply letters_scalar|].
  rewrite U8String2WString_wrapped.
  - intros H. symmetry in H. revert H.
    apply letters_not_empty, four_GiB_size.
  - rewrite letters_size, four_GiB_size. reflexivity.
Qed.

(** C6 as stated fails on the same input, which ISO 8859-1 expresses
    without loss. *)
Lemma utf8_system_round_trip_fails_at_4GiB :
  utf8_conformant reference_host /\
  forallb is_scalar (repeat 97 four_GiB) = true /\
  expressible_in_ACP reference_host (utf16_encode (repeat 97 four_GiB)) /\
  @String2U8String reference_host
    (@U8String2String reference_host (utf8_encode (repeat 97 four_GiB)))
  <> utf8_encode (repeat 97 four_GiB).
Proof.
  split; [exact reference_host_conformant|].
  split; [apply letters_scalar|].
  split; [apply letters_expressible, four_GiB_size|].
  rewrite U8String2String_wrapped.
  - intros H. symmetry in H. revert H.
    apply letters_not_empty, four_GiB_size.
  - rewrite letters_size, four_GiB_size. reflexivity.
Qed.

(** The text "héllo" on the reference host. *)
Lemma utf8_wide_round_trip_hello :
  @WString2U8String reference_host
    (@U8String2WString reference_host ["h"; xc3; xa9; "l"; "l"; "o"]%byte)
  = ["h"; xc3; xa9; "l"; "l"; "o"]%byte.
Proof.
  apply (@utf8_wide_round_trip reference_host [104; 233; 108; 108; 111]).
  - exact reference_host_conformant.
  - reflexivity.
  - unfold size, INT_MAX. simpl. lia.
Defined.

Lemma utf8_system_round_trip_hello :
  @String2U8String reference_host
    (@U8String2String reference_host ["h"; xc3; xa9; "l"; "l"; "o"]%byte)
  = ["h"; xc3; xa9; "l"; "l"; "o"]%byte.
Proof.
  apply (@utf8_system_round_trip reference_host [104; 233; 108; 108; 111]).
  - exact reference_host_conformant.
  - reflexivity.
  - split; [reflexivity | discriminate].
  - unfold size, INT_MAX. simpl. lia.
  - unfold size, INT_MAX. simpl. lia.
Defined.

(** The example of the specification, on the reference host and shell. *)
Lemma GetUTF8CommandLineArgs_example :
  fst (@utf8_args.win32.GetUTF8CommandLineArgs reference_host
         (reference_shell
            [112; 114; 111; 103; 32; 104; 233; 108; 108; 111; 32;
             45; 45; 102; 108; 97; 103; 61; 49])) =
  [["p"; "r"; "o"; "g"]; ["h"; xc3; xa9; "l"; "l"; "o"];
   ["-"; "-"; "f"; "l"; "a"; "g"; "="; "1"]]%byte.
Proof.
  destruct GetUTF8CommandLineArgs_preserves_arguments as (_ & H & _).
  apply (H reference_host _
           [[112; 114; 111; 103]; [104; 233; 108; 108; 111];
            [45; 45; 102; 108; 97; 103; 61; 49]]).
  - exact reference_host_conformant.
  - reflexivity.
  - reflexivity.
Defined.

(** An empty command line makes the reference parser fail. *)
Lemma GetUTF8CommandLineArgs_failure_example :
  @utf8_args.win32.GetUTF8CommandLineArgs reference_host (reference_shell [])
    = ([], [utf8_args.win32.diagnostic]) /\
  lines_written
    (snd (@utf8_args.win32.GetUTF8CommandLineArgs reference_host
            (reference_shell []))) = 1%nat.
Proof.
  apply (proj1 (GetUTF8CommandLineArgs_reports_parse_failure
                  reference_host (reference_shell []))).
  reflexivity.
Defined.

(* ================================================================== *)
(** * Further properties of the counter *)

Lemma lead_width_bound (c : Z) (w : nat) :
  lead_width c = Some w -> (1 <= w <= 4)%nat.
Proof.
  unfold lead_width.
  destruct (Z.testbit c 7), (Z.testbit c 6), (Z.testbit c 5),
    (Z.testbit c 4), (Z.testbit c 3); cbn [negb]; intros H;
    try discriminate; injection H as H; lia.
Qed.

(** The scan of well-formed text that a terminator follows, whatever comes
    after the terminator. *)
Lemma U8StrLength_terminated (cps : list Z) (tail : list byte) :
  forallb nonzero_scalar cps = true ->
  size cps <= SIZE_MAX ->
  U8StrLength (Some (utf8_encode cps ++ x00 :: tail)) = Returned (size cps).
Proof.
  intros Hall Hmax. unfold U8StrLength.
  pose proof (U8StrLength_loop_encoded cps [] (x00 :: tail) 0 Hall) as Hscan.
  cbn [app List.length Nat.add] in Hscan. rewrite Hscan.
  rewrite (U8StrLength_loop_step _ _ _ x00) by apply nth_error_middle.
  change (is_nul x00) with true. cbv iota. unfold size in *.
  rewrite size_t_iter by (unfold SIZE_MAX in *; lia).
  rewrite Z.add_0_l. reflexivity.
Qed.

(** X1. The count ends at the first NUL byte: what follows it in the array
    is not examined, and the [std::string] overload counts only the text
    before an embedded NUL. *)
Theorem U8StrLength_ends_at_first_nul (cps : list Z) (tail : list byte) :
  forallb nonzero_scalar cps = true ->
  size cps <= SIZE_MAX ->
  U8StrLength (Some (utf8_encode cps ++ x00 :: tail)) = Returned (size cps) /\
  U8StrLength_string (utf8_encode cps ++ x00 :: tail) = Returned (size cps).
Proof.
  intros Hall Hmax. split; [apply U8StrLength_terminated; assumption|].
  unfold U8StrLength_string.
  destruct (utf8_encode cps ++ x00 :: tail) as [|b s] eqn:E.
  - apply app_eq_nil in E. destruct E as [_ E]. discriminate.
  - cbn [empty]. rewrite <- E. unfold c_str. rewrite <- app_assoc.
    apply (U8StrLength_terminated cps (tail ++ [x00])); assumption.
Qed.

Lemma U8StrLength_embedded_nul :
  U8StrLength_string ["a"; "b"; x00; "c"; "d"]%byte = Returned 2.
Proof.
  exact (proj2 (U8StrLength_ends_at_first_nul [97; 98] ["c"; "d"]%byte
                  eq_refl ltac:(unfold size, SIZE_MAX; simpl; lia))).
Defined.

(** X2. Well-formed text followed by a byte that is no lead byte (a stray
    continuation byte, or [0xF8] and above): the scan stops there and
    returns the number of code points before it. *)
Theorem U8StrLength_counts_up_to_malformed_byte
    (cps : list Z) (bad : byte) (rest : list byte) :
  forallb nonzero_scalar cps = true ->
  size cps <= SIZE_MAX ->
  lead_width (uchar bad) = None ->
  U8StrLength (Some (utf8_encode cps ++ bad :: rest)) = Returned (size cps).
Proof.
  intros Hall Hmax Hbad. unfold U8StrLength.
  pose proof (U8StrLength_loop_encoded cps [] (bad :: rest) 0 Hall) as Hscan.
  cbn [app List.length Nat.add] in Hscan. rewrite Hscan.
  rewrite (U8StrLength_loop_step _ _ _ bad) by apply nth_error_middle.
  rewrite Hbad. unfold size in *.
  rewrite size_t_iter by (unfold SIZE_MAX in *; lia).
  rewrite Z.add_0_l. destruct (is_nul bad); reflexivity.
Qed.

Lemma U8StrLength_stray_continuation :
  U8StrLength (Some ["h"; xc3; xa9; x80; "l"; "o"; x00]%byte) = Returned 2.
Proof.
  exact (U8StrLength_counts_up_to_malformed_byte [104; 233] x80
           ["l"; "o"; x00]%byte eq_refl
           ltac:(unfold size, SIZE_MAX; simpl; lia) eq_refl).
Defined.

Lemma U8StrLength_loop_bound (k : nat) :
  forall (mem : list byte) (str : nat) (count n : Z),
  (List.length mem - str <= k)%nat ->
  0 <= count ->
  U8StrLength_loop mem str count = Returned n ->
  0 <= n <= count + Z.of_nat (List.length mem - str).
Proof.
  induction k as [|k IH]; intros mem str count n Hk H0 Hret;
    rewrite U8StrLength_loop_eq in Hret;
    destruct (nth_error mem str) as [ch|] eqn:Ech; try discriminate;
    assert (Hin : (str < List.length mem)%nat)
      by (apply nth_error_Some; congruence); [lia|].
  assert (Hs : 0 <= size_t (count + 1) <= count + 1).
  { unfold size_t. pose proof (Z.mod_pos_bound (count + 1) (2 ^ 64)).
    pose proof (Z.mod_le (count + 1) (2 ^ 64)). lia. }
  cbv zeta in Hret.
  destruct (is_nul ch); [injection Hret as Hret; lia|].
  destruct (uchar ch <? 128);
    [apply IH in Hret; lia|].
  destruct (Z.shiftr (uchar ch) 5 =? 6);
    [apply IH in Hret; lia|].
  destruct (Z.shiftr (uchar ch) 4 =? 14);
    [apply IH in Hret; lia|].
  destruct (Z.shiftr (uchar ch) 3 =? 30);
    [apply IH in Hret; lia|].
  injection Hret as Hret. lia.
Qed.

(** X3. A returned count is never negative and never exceeds the number of
    bytes of the array: each counted sequence consumes at least one byte. *)
Theorem U8StrLength_at_most_size (mem : list byte) (n : Z) :
  U8StrLength (Some mem) = Returned n -> 0 <= n <= size mem.
Proof.
  unfold U8StrLength. intros Hret.
  apply (U8StrLength_loop_bound (List.length mem)) in Hret; try lia.
  unfold size. lia.
Qed.

Lemma U8StrLength_at_most_size_example :
  0 <= 5 <= size ["h"; xc3; xa9; "l"; "l"; "o"; x00]%byte.
Proof.
  exact (U8StrLength_at_most_size ["h"; xc3; xa9; "l"; "l"; "o"; x00]%byte 5
           eq_refl).
Defined.

Lemma nth_error_padding (s : list byte) (str : nat) :
  (List.length s <= str < List.length s + 4)%nat ->
  nth_error (s ++ [x00; x00; x00; x00]) str = Some x00.
Proof.
  intros H. rewrite nth_error_app2 by lia.
  destruct (str - List.length s)%nat as [|[|[|[|m]]]] eqn:E;
    try reflexivity. lia.
Qed.

Lemma U8StrLength_loop_padded (k : nat) :
  forall (s : list byte) (str : nat) (count : Z),
  (List.length s + 4 - str <= k)%nat ->
  (str < List.length s + 4)%nat ->
  exists n, U8StrLength_loop (s ++ [x00; x00; x00; x00]) str count
            = Returned n.
Proof.
  induction k as [|k IH]; intros s str count Hk Hin; [lia|].
  destruct (le_lt_dec (List.length s) str) as [Hpad|Htext].
  - rewrite (U8StrLength_loop_step _ _ _ x00)
      by (apply nth_error_padding; lia).
    eexists. reflexivity.
  - destruct (nth_error s str) as [ch|] eqn:Ech.
    2:{ apply nth_error_None in Ech. lia. }
    rewrite (U8StrLength_loop_step _ _ _ ch)
      by (rewrite nth_error_app1 by lia; exact Ech).
    destruct (is_nul ch); [eexists; reflexivity|].
    destruct (lead_width (uchar ch)) as [w|] eqn:Ew;
      [|eexists; reflexivity].
    apply lead_width_bound in Ew. apply IH; lia.
Qed.

(** X4. Reads past the end are ruled out by padding: whatever the bytes of
    an array are, when four zero bytes follow them (the terminator and
    three more) the scan returns a count.  Three zero bytes are not enough
    after a lone four-byte lead. *)
Theorem U8StrLength_padded_never_reads_past_end :
  (forall s : list byte,
     exists n, U8StrLength (Some (s ++ [x00; x00; x00; x00])) = Returned n) /\
  U8StrLength (Some ([xf0] ++ [x00; x00; x00])) = ReadPastEnd.
Proof.
  split; [|reflexivity]. intros s. unfold U8StrLength.
  apply (U8StrLength_loop_padded (List.length s + 4)); lia.
Qed.

(* ================================================================== *)
(** * Further properties of the conversions *)

Lemma is_nul_to_char (z : Z) :
  0 <= z < 256 -> is_nul (to_char z) = (z =? 0).
Proof.
  intros Hz. rewrite is_nul_uchar, uchar_to_char by exact Hz. reflexivity.
Qed.

Lemma utf8_encode_no_nul (cps : list Z) :
  forallb nonzero_scalar cps = true ->
  forallb (fun c => negb (is_nul c)) (utf8_encode cps) = true.
Proof.
  induction cps as [|c cps IH]; intros H; [reflexivity|].
  simpl in H. apply andb_prop in H. destruct H as [Hc Hall].
  change (utf8_encode (c :: cps)) with (utf8_encode1 c ++ utf8_encode cps).
  rewrite forallb_app, IH by exact Hall. rewrite andb_true_r.
  unfold nonzero_scalar in Hc. apply andb_prop in Hc. destruct Hc as [Hs Hnz].
  apply is_scalar_range in Hs. unfold utf8_encode1.
  destruct (c <? 128) eqn:E1; [|destruct (c <? 2048) eqn:E2;
    [|destruct (c <? 65536) eqn:E3]]; cbn [forallb];
    rewrite !is_nul_to_char by zdiv; rewrite ?andb_true_r.
  - exact Hnz.
  - replace (192 + c / 64 =? 0) with false by zdiv.
    replace (128 + c mod 64 =? 0) with false by zdiv. reflexivity.
  - replace (224 + c / 4096 =? 0) with false by zdiv.
    replace (128 + (c / 64) mod 64 =? 0) with false by zdiv.
    replace (128 + c mod 64 =? 0) with false by zdiv. reflexivity.
  - replace (240 + c / 262144 =? 0) with false by zdiv.
    replace (128 + (c / 4096) mod 64 =? 0) with false by zdiv.
    replace (128 + (c / 64) mod 64 =? 0) with false by zdiv.
    replace (128 + c mod 64 =? 0) with false by zdiv. reflexivity.
Qed.

Lemma scalars_with_terminator (text : list Z) :
  forallb nonzero_scalar text = true ->
  forallb is_scalar (text ++ [0]) = true.
Proof.
  intros H. rewrite forallb_app, nonzero_scalars_scalars by exact H.
  reflexivity.
Qed.

Lemma utf8_encode_terminated (text : list Z) :
  utf8_encode (text ++ [0]) = c_str (utf8_encode text).
Proof. unfold utf8_encode. rewrite flat_map_app. reflexivity. Qed.

Lemma utf16_encode_terminated (text : list Z) :
  utf16_encode (text ++ [0]) = wc_str (utf16_encode text).
Proof. unfold utf16_encode. rewrite flat_map_app. reflexivity. Qed.

Lemma utf16_units_count (cps : list Z) :
  size (utf16_encode cps) =
  size cps + size (filter (fun c => 0x10000 <=? c) cps).
Proof.
  unfold size. induction cps as [|c cps IH]; [reflexivity|].
  change (utf16_encode (c :: cps)) with (utf16_encode1 c ++ utf16_encode cps).
  rewrite length_app. cbn [filter List.length]. unfold utf16_encode1.
  destruct (c <? 65536) eqn:E.
  - replace (65536 <=? c) with false by lia. simpl List.length. lia.
  - replace (65536 <=? c) with true by lia. simpl List.length. lia.
Qed.

Lemma utf8_size_at_least (cps : list Z) :
  size cps <= size (utf8_encode cps).
Proof.
  unfold size. induction cps as [|c cps IH]; [simpl; lia|].
  change (utf8_encode (c :: cps)) with (utf8_encode1 c ++ utf8_encode cps).
  rewrite length_app. pose proof (utf8_encode1_length c).
  cbn [List.length]. lia.
Qed.

Section MoreConversions.
Context {host : Host}.

(** X5. The [std::string] conversions convert the whole string object,
    embedded NULs included: for a non-empty string of at most [INT_MAX]
    characters, whose conversion the host reports in an [int], the result
    is what the host's code page makes of exactly the characters of the
    string. *)
Theorem string_conversions_convert_whole_string :
  (forall (str : list byte) (cp : Z),
     str <> [] -> size str <= INT_MAX ->
     size (mb_decode cp str) <= INT_MAX ->
     String2WString str cp = mb_decode cp str) /\
  (forall (wstr : list wchar_t) (cp : Z),
     wstr <> [] -> size wstr <= INT_MAX ->
     size (wc_encode cp wstr) <= INT_MAX ->
     WString2String wstr cp = wc_encode cp wstr).
Proof.
  split.
  - intros str cp Hne Hmax _. apply String2WString_table; assumption.
  - intros wstr cp Hne Hmax _. apply WString2String_table; assumption.
Qed.

(** X6. Called with the default length [-1] on a conforming host, for a
    text of fewer than [INT_MAX] bytes, the C string conversion from UTF-8
    returns the text followed by a null wide character, so a string one
    longer than the text, and looks at nothing after the terminator. *)
Theorem U8CStr2WString_default_length_appends_null
    (text : list Z) (tail : list byte) :
  utf8_conformant host ->
  forallb nonzero_scalar text = true ->
  size (utf8_encode text) < INT_MAX ->
  U8CStr2WString (Some (utf8_encode text ++ x00 :: tail)) (-1)
    = wc_str (utf16_encode text) /\
  size (U8CStr2WString (Some (utf8_encode text ++ x00 :: tail)) (-1))
    = size (utf16_encode text) + 1.
Proof.
  intros Hhost Htext _.
  assert (H : U8CStr2WString (Some (utf8_encode text ++ x00 :: tail)) (-1)
              = wc_str (utf16_encode text)).
  { unfold U8CStr2WString. change (-1 =? 0) with false. cbv iota.
    rewrite CStr2WString_source, source_sentinel.
    rewrite through_nul_terminated
      by (first [apply utf8_encode_no_nul; exact Htext | reflexivity]).
    fold (c_str (utf8_encode text)).
    rewrite <- utf8_encode_terminated, <- utf16_encode_terminated.
    apply Hhost. apply scalars_with_terminator. exact Htext. }
  split; [exact H|]. rewrite H. unfold wc_str, size.
  rewrite length_app. simpl. lia.
Qed.

(** X7. On a conforming host [WideToUTF8] returns the UTF-8 encoding of
    the text before the first null wide character (a text of fewer than
    [INT_MAX] bytes in UTF-8), without a terminator, whatever follows that
    character in the array. *)
Theorem WideToUTF8_returns_text_without_terminator
    (text : list Z) (tail : list wchar_t) :
  utf8_conformant host ->
  forallb nonzero_scalar text = true ->
  size (utf8_encode text) < INT_MAX ->
  win32.WideToUTF8 (Some (utf16_encode text ++ 0 :: tail))
    = utf8_encode text.
Proof.
  intros Hhost Htext _. rewrite WideToUTF8_source.
  rewrite through_nul_terminated
    by (first [apply utf16_encode_no_nul; exact Htext | reflexivity]).
  change [0] with (utf16_encode [0]).
  unfold utf16_encode. rewrite <- flat_map_app.
  fold (utf16_encode (text ++ [0])).
  destruct (Hhost (text ++ [0]) (scalars_with_terminator text Htext))
    as [_ Henc].
  rewrite Henc, utf8_encode_terminated. apply removelast_last.
Qed.

(** X8. On a conforming host the round trip in the other direction holds
    as well: a wide string that is the UTF-16 encoding of a text, whose
    UTF-8 encoding takes at most [INT_MAX] bytes, survives the conversion
    to UTF-8 and back unchanged. *)
Theorem wide_utf8_round_trip (cps : list Z) :
  utf8_conformant host ->
  forallb is_scalar cps = true ->
  size (utf8_encode cps) <= INT_MAX ->
  U8String2WString (WString2U8String (utf16_encode cps)) = utf16_encode cps.
Proof.
  intros Hhost Hcps Hmax.
  assert (Hto : WString2U8String (utf16_encode cps) = utf8_encode cps).
  { destruct cps as [|c cps]; [reflexivity|].
    pose proof (utf16_encode_nonempty c cps) as Hne.
    pose proof (utf16_encode_size (c :: cps)) as Hle.
    unfold WString2U8String.
    destruct (utf16_encode (c :: cps)) as [|u w] eqn:E; [congruence|].
    cbn [empty]. rewrite <- E in *.
    rewrite WString2String_table by (assumption || lia).
    apply Hhost. exact Hcps. }
  rewrite Hto. apply U8String2WString_table; assumption.
Qed.

(** X9. The round trip from the system code page: a system-code-page
    string that the host decodes to a non-empty text and encodes that text
    back to, of at most [INT_MAX] bytes there and in UTF-8, survives the
    conversion to UTF-8 and back unchanged. *)
Theorem system_utf8_round_trip (str : list byte) (cps : list Z) :
  utf8_conformant host ->
  forallb is_scalar cps = true ->
  cps <> [] ->
  mb_decode CP_ACP str = utf16_encode cps ->
  wc_encode CP_ACP (utf16_encode cps) = str ->
  size str <= INT_MAX ->
  size (utf8_encode cps) <= INT_MAX ->
  U8String2String (String2U8String str) = str.
Proof.
  intros Hhost Hcps Hne Hdec Henc Hmax Hmax8.
  destruct str as [|b str']; [reflexivity|].
  rewrite String2U8String_compose.
  rewrite String2WString_table by (discriminate || assumption).
  rewrite Hdec.
  destruct cps as [|c cps]; [congruence|].
  pose proof (utf16_encode_nonempty c cps) as Hne16.
  pose proof (utf16_encode_size (c :: cps)) as Hle.
  assert (Hto : WString2U8String (utf16_encode (c :: cps))
                = utf8_encode (c :: cps)).
  { unfold WString2U8String.
    destruct (utf16_encode (c :: cps)) as [|u w] eqn:E; [congruence|].
    cbn [empty]. rewrite <- E in *.
    rewrite WString2String_table by (assumption || lia).
    apply Hhost. exact Hcps. }
  rewrite Hto, U8String2String_compose.
  rewrite U8String2WString_table by assumption.
  rewrite WString2String_table by (assumption || lia).
  exact Henc.
Qed.

(** X10. Code points and code units: on a conforming host, for a text of
    non-zero scalar values whose UTF-8 encoding takes at most [INT_MAX]
    bytes, [U8StrLength] returns the number of code points while the wide
    string has one unit more for every code point above U+FFFF. *)
Theorem code_points_and_wide_units (cps : list Z) :
  utf8_conformant host ->
  forallb nonzero_scalar cps = true ->
  size (utf8_encode cps) <= INT_MAX ->
  U8StrLength (Some (c_str (utf8_encode cps))) = Returned (size cps) /\
  size (U8String2WString (utf8_encode cps)) =
    size cps + size (filter (fun c => 0x10000 <=? c) cps).
Proof.
  intros Hhost Hcps Hmax. split.
  - apply U8StrLength_terminated; [exact Hcps|].
    pose proof (utf8_size_at_least cps). unfold INT_MAX, SIZE_MAX in *. lia.
  - rewrite U8String2WString_table
      by (first [apply nonzero_scalars_scalars; exact Hcps | assumption]).
    apply utf16_units_count.
Qed.

Context {shell : Shell}.

(** X11. The two branches of the argument decoder agree: when the host
    conforms and the parsed wide arguments hold the UTF-16 encodings of
    the texts whose UTF-8 encodings [argv] holds, both return the same
    list. *)
Theorem GetUTF8CommandLineArgs_branches_agree (texts : list (list Z)) :
  utf8_conformant host ->
  forallb (forallb nonzero_scalar) texts = true ->
  CommandLineToArgvW GetCommandLineW =
    Some (map (fun text => wc_str (utf16_encode text)) texts) ->
  fst win32.GetUTF8CommandLineArgs =
  posix.GetUTF8CommandLineArgs (size texts)
    (map (fun text => c_str (utf8_encode text)) texts).
Proof.
  intros Hhost Htexts Hparse.
  rewrite (GetUTF8CommandLineArgs_parsed _ Hparse). cbn [fst].
  unfold posix.GetUTF8CommandLineArgs, size. rewrite Nat2Z.id.
  rewrite <- (length_map (fun text => c_str (utf8_encode text)) texts).
  rewrite firstn_all, !map_map. apply map_ext_in. intros text Hin.
  rewrite forallb_forall in Htexts. specialize (Htexts text Hin).
  rewrite WideToUTF8_transcodes by assumption.
  unfold c_str. symmetry.
  apply before_nul_terminated;
    [apply utf8_encode_no_nul; exact Htexts | reflexivity].
Qed.

End MoreConversions.

(** The extras on the reference host. *)
Lemma String2WString_embedded_nul :
  @String2WString reference_host ["a"; x00; "b"]%byte CP_ACP = [97; 0; 98].
Proof.
  apply (proj1 (@string_conversions_convert_whole_string reference_host)).
  - discriminate.
  - unfold size, INT_MAX. simpl. lia.
  - unfold size, INT_MAX. simpl. lia.
Defined.

Lemma U8CStr2WString_default_length_hello :
  @U8CStr2WString reference_host
    (Some ["h"; xc3; xa9; x00; "x"]%byte) (-1) = [104; 233; 0] /\
  size (@U8CStr2WString reference_host
          (Some ["h"; xc3; xa9; x00; "x"]%byte) (-1)) = 2 + 1.
Proof.
  exact (@U8CStr2WString_default_length_appends_null reference_host
           [104; 233] ["x"]%byte reference_host_conformant eq_refl
           ltac:(unfold size, INT_MAX; simpl; lia)).
Defined.

Lemma WideToUTF8_hello :
  @win32.WideToUTF8 reference_host (Some [104; 233; 0; 120])
    = ["h"; xc3; xa9]%byte.
Proof.
  exact (@WideToUTF8_returns_text_without_terminator reference_host
           [104; 233] [120] reference_host_conformant eq_refl
           ltac:(unfold size, INT_MAX; simpl; lia)).
Defined.

Lemma wide_utf8_round_trip_emoji :
  @U8String2WString reference_host
    (@WString2U8String reference_host [104; 55357; 56832])
  = [104; 55357; 56832].
Proof.
  apply (@wide_utf8_round_trip reference_host [104; 128512]).
  - exact reference_host_conformant.
  - reflexivity.
  - unfold size, INT_MAX. simpl. lia.
Defined.

Lemma system_utf8_round_trip_latin1 :
  @U8String2String reference_host
    (@String2U8String reference_host ["h"; xe9]%byte) = ["h"; xe9]%byte.
Proof.
  apply (@system_utf8_round_trip reference_host ["h"; xe9]%byte [104; 233]).
  - exact reference_host_conformant.
  - reflexivity.
  - discriminate.
  - reflexivity.
  - reflexivity.
  - unfold size, INT_MAX. simpl. lia.
  - unfold size, INT_MAX. simpl. lia.
Defined.

Lemma code_points_and_wide_units_emoji :
  U8StrLength (Some ["h"; xf0; x9f; x98; x80; x00]%byte) = Returned 2 /\
  size (@U8String2WString reference_host ["h"; xf0; x9f; x98; x80]%byte)
    = 2 + 1.
Proof.
  apply (@code_points_and_wide_units reference_host [104; 128512]).
  - exact reference_host_conformant.
  - reflexivity.
  - unfold size, INT_MAX. simpl. lia.
Defined.

Lemma GetUTF8CommandLineArgs_branches_agree_example :
  fst (@win32.GetUTF8CommandLineArgs reference_host
         (reference_shell [112; 32; 104; 233])) =
  posix.GetUTF8CommandLineArgs 2
    [["p"; x00]; ["h"; xc3; xa9; x00]]%byte.
Proof.
  apply (@GetUTF8CommandLineArgs_branches_agree reference_host
           (reference_shell [112; 32; 104; 233]) [[112]; [104; 233]]).
  - exact reference_host_conformant.
  - reflexivity.
  - reflexivity.
Defined.

(* ================================================================== *)
(** * The length sentinel beyond the range of [int] *)





